(** * Dependency-aware pipeline scheduler of [automatic_pipeline.py]

    A shallow embedding of the orchestration code of the script:
    [setup_args], the duplicate-folder check of the [__main__] block,
    [identify_dependencies], [run_stage], [run_pipeline] and [main].

    The seven stage functions (frame extraction, cropping, ...) are opaque
    to the scheduler; only whether a call returns or raises is visible. *)

From stdpp Require Import gmap strings list fin_maps relations.

Local Open Scope Z_scope.

(** ** Configuration records *)

(** A stage argument as it arrives from the command line or a TOML file:
    an integer, or a string holding a number or a stage alias. *)
Inductive PyVal :=
  | VInt (z : Z)
  | VStr (s : string).

(** The [argparse.Namespace] before [setup_args] has run on it.  Only the
    attributes read by the orchestration code are kept. *)
Record Args := mkArgs {
  arg_pipeline_type : string;
  arg_image_type : option string;
  arg_dst_dir : string;
  arg_extra_path_component : string;
  arg_character_ref_dir : option string;
  arg_n_add_to_ref_per_character : Z;
  arg_start_stage : PyVal;
  arg_end_stage : PyVal;
}.

(** The same namespace once [setup_args] has normalised it:
    [image_type] is filled in and both stage bounds are integers. *)
Record Config := mkConfig {
  pipeline_type : string;
  image_type : string;
  dst_dir : string;
  extra_path_component : string;
  character_ref_dir : option string;
  n_add_to_ref_per_character : Z;
  start_stage : Z;
  end_stage : Z;
}.

(** ** Python built-ins used by the orchestration code *)

(** [enumerate(l)] *)
Definition enumerate {A} (l : list A) : list (nat * A) :=
  imap (λ i x, (i, x)) l.

(** [range(lo, hi)] with the default step of one; empty when [hi <= lo]. *)
Definition range (lo hi : Z) : list Z := seqZ lo (hi - lo).

(** ** [identify_dependencies] *)

(** The list comprehension of lines 459-465: the indices of the booru
    configurations that add to the reference directory of [config]. *)
Definition select_provider (config : Config) (jd : nat * Config) : option nat :=
  let '(j, dep_config) := jd in
  if bool_decide (character_ref_dir dep_config = character_ref_dir config)
     && bool_decide (pipeline_type dep_config = "booru")
     && (n_add_to_ref_per_character dep_config >? 0)
  then Some j else None.

Definition dependent_configs (configs : list Config) (config : Config) : list nat :=
  omap (select_provider config) (enumerate configs).

(** One iteration of the [for i, config in enumerate(configs)] loop. *)
Definition identify_step (configs : list Config)
    (stage3_dependencies : gmap nat (list nat)) (ic : nat * Config)
    : gmap nat (list nat) :=
  let '(i, config) := ic in
  if negb (bool_decide (pipeline_type config = "booru"))
     || (n_add_to_ref_per_character config <=? 0)
  then
    let deps := dependent_configs configs config in
    match deps with
    | [] => stage3_dependencies
    | _ :: _ => <[i := deps]> stage3_dependencies
    end
  else stage3_dependencies.

Definition identify_dependencies (configs : list Config) : gmap nat (list nat) :=
  foldl (identify_step configs) ∅ (enumerate configs).

(** What the loop stores under the index of [config], if anything. *)
Definition stored_deps (configs : list Config) (config : Config)
    : option (list nat) :=
  if negb (bool_decide (pipeline_type config = "booru"))
     || (n_add_to_ref_per_character config <=? 0)
  then
    match dependent_configs configs config with
    | [] => None
    | deps => Some deps
    end
  else None.

(** The attributes of a record that [identify_dependencies] reads. *)
Definition dep_attrs (config : Config) : string * Z * option string :=
  (pipeline_type config, n_add_to_ref_per_character config,
   character_ref_dir config).

(** The dependency relation as the specification words it: record [i]
    depends on provider [j]. *)
Definition spec_depends_on (configs : list Config) (i j : nat) : Prop :=
  i ≠ j ∧
  ∃ r p, configs !! i = Some r ∧ configs !! j = Some p ∧
    character_ref_dir r = character_ref_dir p ∧
    (pipeline_type p = "booru" ∧ n_add_to_ref_per_character p > 0) ∧
    ¬ (pipeline_type r = "booru" ∧ n_add_to_ref_per_character r > 0).

(** ** [setup_args] and the duplicate-folder check of [__main__] *)

Definition STAGE_ALIASES : list (Z * list string) :=
  [ (1, ["extract"]); (2, ["crop"]); (3, ["classify"]); (4, ["select"]);
    (5, ["tag"; "caption"; "tag_and_caption"]); (6, ["arrange"]);
    (7, ["balance"]) ].

(** [v in STAGE_ALIASES[stage_number]]: an integer never equals an alias. *)
Definition in_aliases (v : PyVal) (aliases : list string) : bool :=
  match v with
  | VStr s => bool_decide (s ∈ aliases)
  | VInt _ => false
  end.

(** The loop of lines 93-97 for one of the two bounds: the bound becomes
    the number of the stage whose alias it is, and stays as it is when it
    is no alias. *)
Definition resolve_alias (v : PyVal) : PyVal :=
  foldl (λ stage '(stage_number, aliases),
           if in_aliases v aliases then VInt stage_number else stage)
        v STAGE_ALIASES.

(** [dst_folder] of line 552. *)
Definition dst_folder (config : Config) : string * string * string :=
  (dst_dir config, extra_path_component config, image_type config).

(** [not config.image_type]: [None] and the empty string are falsy. *)
Definition falsy (o : option string) : bool :=
  match o with
  | None => true
  | Some s => bool_decide (s = "")
  end.

(** The image type a record has once lines 86-87 have run. *)
Definition effective_image_type (args : Args) : string :=
  if falsy (arg_image_type args) then arg_pipeline_type args
  else default "" (arg_image_type args).

(** The triple that line 552 reads for a record. *)
Definition folder_key (args : Args) : string * string * string :=
  (arg_dst_dir args, arg_extra_path_component args, effective_image_type args).

(** Exceptions that the orchestration code can raise or let through. *)
Inductive Exn :=
  | KeyError
  | IndexError
  | StageFailure (config_index : nat) (stage_num : Z).

(** ** The runner as a state machine *)

(** Where a [run_pipeline] coroutine stands.  [todo] is what the [range]
    iterator of the [for] loop has yet to yield. *)
Inductive Runner :=
  | AtLoop (todo : list Z)
  | Waiting (providers : list nat) (stage_num : Z) (todo : list Z)
  | Dispatching (stage_num : Z) (todo : list Z)
  | Completed
  | Failed (e : Exn).

(** The state shared by the coroutines of one [asyncio.run(main(configs))]:
    the [stage_events] list of dictionaries (an [asyncio.Event] is its flag),
    one [Runner] per configuration, and a log of the calls made to stage
    functions: configuration index, stage number and whether the call
    returned normally. *)
Record Sys := mkSys {
  stage_events : list (gmap Z bool);
  runners : list Runner;
  calls : list (nat * Z * bool);
}.

(** The names bound in [STAGE_FUNCTIONS]. *)
Inductive StageFn :=
  | extract_frames | crop_characters | classify_characters
  | select_dataset_images | tag_and_caption | rearrange | balance.

Definition STAGE_FUNCTIONS (stage_num : Z) : option StageFn :=
  if bool_decide (stage_num = 1) then Some extract_frames
  else if bool_decide (stage_num = 2) then Some crop_characters
  else if bool_decide (stage_num = 3) then Some classify_characters
  else if bool_decide (stage_num = 4) then Some select_dataset_images
  else if bool_decide (stage_num = 5) then Some tag_and_caption
  else if bool_decide (stage_num = 6) then Some rearrange
  else if bool_decide (stage_num = 7) then Some balance
  else None.

(** [stage_events[config_index][stage_num]] *)
Definition get_event (evs : list (gmap Z bool)) (config_index : nat)
    (stage_num : Z) : Exn + bool :=
  match evs !! config_index with
  | None => inl IndexError
  | Some d =>
      match d !! stage_num with
      | None => inl KeyError
      | Some flag => inr flag
      end
  end.

(** [stage_events[config_index][stage_num].set()] *)
Definition set_event (evs : list (gmap Z bool)) (config_index : nat)
    (stage_num : Z) : Exn + list (gmap Z bool) :=
  match evs !! config_index with
  | None => inl IndexError
  | Some d =>
      match d !! stage_num with
      | None => inl KeyError
      | Some _ => inr (<[config_index := <[stage_num := true]> d]> evs)
      end
  end.

(** The generator of lines 498-501: looks up the stage-3 event of every
    provider in turn; the first missing one raises. *)
Fixpoint provider_events (evs : list (gmap Z bool)) (providers : list nat)
    : Exn + list bool :=
  match providers with
  | [] => inr []
  | dep_index :: rest =>
      match get_event evs dep_index 3 with
      | inl e => inl e
      | inr flag =>
          match provider_events evs rest with
          | inl e => inl e
          | inr flags => inr (flag :: flags)
          end
      end
  end.

(** Whether [stage_events[dep_index][3]] is set for every provider: the
    condition under which the awaited [asyncio.gather] returns. *)
Definition all_set (evs : list (gmap Z bool)) (providers : list nat) : bool :=
  forallb (λ dep_index,
             match get_event evs dep_index 3 with
             | inr true => true
             | _ => false
             end) providers.

Definition set_runner (config_index : nat) (r : Runner) (σ : Sys) : Sys :=
  {| stage_events := stage_events σ;
     runners := <[config_index := r]> (runners σ);
     calls := calls σ |}.

(** What [main] builds before it starts the runners (lines 509-515). *)
Definition init_events (configs : list Config) : list (gmap Z bool) :=
  (λ config,
     list_to_map ((λ j, (j, false))
                    <$> range (start_stage config) (end_stage config + 1)))
    <$> configs.

Definition main_init (configs : list Config) : Sys :=
  {| stage_events := init_events configs;
     runners := (λ config, AtLoop (range (start_stage config)
                                         (end_stage config + 1)))
                  <$> configs;
     calls := [] |}.

(** The calls that runner [i] has made, oldest first, and their stages. *)
Definition calls_of (i : nat) (log : list (nat * Z * bool)) : list (Z * bool) :=
  omap (λ '(j, s, b), if bool_decide (j = i) then Some (s, b) else None) log.

Definition stages_of (i : nat) (log : list (nat * Z * bool)) : list Z :=
  (calls_of i log).*1.

(** What the awaited [asyncio.gather] of [main] has to report. *)
Inductive Outcome :=
  | Pending
  | Returned
  | Raised.

Definition is_failed (r : Runner) : bool :=
  match r with Failed _ => true | _ => false end.

Definition is_completed (r : Runner) : bool :=
  match r with Completed => true | _ => false end.

Definition main_outcome (σ : Sys) : Outcome :=
  if existsb is_failed (runners σ) then Raised
  else if forallb is_completed (runners σ) then Returned
  else Pending.

(** ** Directories of the stages *)

(** The record that a stage function receives: the attributes of [Config]
    and those that only the path functions read. *)
Record StageArgs := mkStageArgs {
  args_config : Config;
  src_dir : string;
  rearrange_up_levels : Z;
  compute_multiply_up_levels : Z;
}.

(** What [get_src_dir] gives: a directory, or the [ValueError] of an
    invalid stage.  [OutOfFuel] is for the embedding only: the function
    calls itself, for stage 6 on stage 5 and for stage 7 on stage 6. *)
Inductive SrcDir :=
  | OutOfFuel
  | InvalidStage
  | Dir (path : string).

Section Paths.

(** [os.path.join(a, *p)] and [os.path.dirname]. *)
Variable path_join : string → list string → string.
Variable dirname : string → string.

(** [get_and_create_dst_dir]: the path, and the directories handed to
    [os.makedirs]. *)
Definition get_and_create_dst_dir (args : StageArgs) (mode sub_dir : string)
    (makedirs : bool) : string * list string :=
  let dst := path_join (dst_dir (args_config args))
               [mode; extra_path_component (args_config args);
                image_type (args_config args); sub_dir] in
  (dst, if makedirs then [dst] else []).

(** [for _ in range(levels): dst_dir = os.path.dirname(dst_dir)] *)
Definition up_levels (levels : Z) (dst : string) : string :=
  Nat.iter (Z.to_nat levels) dirname dst.

Fixpoint get_src_dir_fuel (fuel : nat) (args : StageArgs) (stage : Z)
    : SrcDir :=
  match fuel with
  | O => OutOfFuel
  | S fuel =>
      if bool_decide (stage = start_stage (args_config args))
         || bool_decide (stage = 1)
      then Dir (src_dir args)
      else if bool_decide (stage = 2) then
        Dir (get_and_create_dst_dir args "intermediate" "raw" false).1
      else if bool_decide (stage = 3) then
        Dir (get_and_create_dst_dir args "intermediate" "cropped" false).1
      else if bool_decide (stage = 4) then
        Dir (get_and_create_dst_dir args "intermediate" "" false).1
      else if bool_decide (stage = 5) then
        Dir (get_and_create_dst_dir args "training" "" false).1
      else if bool_decide (stage = 6) then
        match get_src_dir_fuel fuel args 5 with
        | Dir dst => Dir (up_levels (rearrange_up_levels args) dst)
        | other => other
        end
      else if bool_decide (stage = 7) then
        match get_src_dir_fuel fuel args 6 with
        | Dir dst => Dir (up_levels (compute_multiply_up_levels args) dst)
        | other => other
        end
      else InvalidStage
  end.

Definition get_src_dir (args : StageArgs) (stage : Z) : SrcDir :=
  get_src_dir_fuel 3 args stage.

(** The directory that a stage function writes to and has created, for
    the four functions that have one: lines 184, 206, 255 and 293. *)
Definition stage_dst_dir (fn : StageFn) (args : StageArgs)
    : option (string * list string) :=
  match fn with
  | extract_frames =>
      Some (get_and_create_dst_dir args "intermediate" "raw" true)
  | crop_characters =>
      Some (get_and_create_dst_dir args "intermediate" "cropped" true)
  | classify_characters =>
      Some (get_and_create_dst_dir args "intermediate" "classified" true)
  | select_dataset_images =>
      Some (get_and_create_dst_dir args "training" "" true)
  | tag_and_caption => None
  | rearrange => None
  | balance => None
  end.

(** [classified_dir] and [full_dir] of [select_dataset_images]. *)
Definition select_source_dirs (args : StageArgs) (stage : Z)
    : option (string * string) :=
  match get_src_dir args stage with
  | Dir src => Some (path_join src ["classified"], path_join src ["raw"])
  | _ => None
  end.

End Paths.

(** [os.path.join] of POSIX paths: a component that starts with the
    separator replaces what came before; otherwise it is appended, with a
    separator unless the path so far is empty or ends with one. *)
Definition starts_with_sep (b : string) : bool :=
  match b with
  | String c _ => bool_decide (String c EmptyString = "/")
  | EmptyString => false
  end.

Fixpoint ends_with_sep (path : string) : bool :=
  match path with
  | EmptyString => false
  | String c rest =>
      match rest with
      | EmptyString => bool_decide (String c EmptyString = "/")
      | String _ _ => ends_with_sep rest
      end
  end.

Definition join_step (path b : string) : string :=
  if starts_with_sep b then b
  else if bool_decide (path = "") || ends_with_sep path
       then String.append path b
       else String.append path (String.append "/" b).

Definition posix_join (a : string) (p : list string) : string :=
  foldl join_step a p.

(** A record that runs all seven stages, for the path functions. *)
Definition stage_args_full : StageArgs :=
  mkStageArgs (mkConfig "screenshots" "screenshots" "/data/out" "show" (Some "r1")
                 0 1 7)
              "/data/videos" 2 1.

(** ** Namespaces and configuration files *)

Section Namespaces.

(** The values that an attribute of a namespace or an entry of a TOML
    file holds, and what the script asks of them: whether a value is a
    [dict] (and its items, in order), whether it is true in a condition,
    and what a [for] loop over it yields ([None]: it is not iterable). *)
Context {V : Type}.
Variable as_dict : V → option (list (string * V)).
Variable truthy : V → bool.
Variable py_iter : V → option (list V).

(** [open] and [toml.load] on a path: the items of the file in their
    order, or [None] for any exception. *)
Variable toml_load : V → option (list (string * V)).

(** [setattr(ns, key, value)] for the items of a dictionary, in order. *)
Definition setattr_items (ns : gmap string V) (items : list (string * V))
    : gmap string V :=
  foldl (λ ns kv, <[kv.1 := kv.2]> ns) ns items.

(** The body of the loop of lines 59-65. *)
Definition apply_config_item (ns : gmap string V) (kv : string * V)
    : gmap string V :=
  match as_dict kv.2 with
  | Some nested => setattr_items ns nested
  | None => <[kv.1 := kv.2]> ns
  end.

(** [update_args_from_toml]: works on a copy of [args]; an exception is
    printed and the copy returned as it is. *)
Definition update_args_from_toml (args : gmap string V) (toml_path : V)
    : gmap string V :=
  match toml_load toml_path with
  | Some config => foldl apply_config_item args config
  | None => args
  end.

(** The entries that a configuration file sets, sections opened up. *)
Definition flatten_config (config : list (string * V)) : list (string * V) :=
  config ≫= (λ kv, match as_dict kv.2 with
                   | Some nested => nested
                   | None => [kv]
                   end).

(** What a configuration file contributes to a namespace: for each name
    the last value that the file gives to it; nothing when the file cannot
    be loaded. *)
Definition file_entries (toml_path : V) : gmap string V :=
  match toml_load toml_path with
  | Some config => list_to_map (reverse (flatten_config config))
  | None => ∅
  end.

(** Lines 529-544 of the [__main__] block: the namespaces of the batch,
    from the parsed arguments and the arguments given explicitly on the
    command line.  [None] is an exception: a missing attribute or a
    [config_file] that cannot be iterated. *)
Definition build_configs (args : gmap string V)
    (explicit_args : list (string * V)) : option (list (gmap string V)) :=
  match args !! "base_config_file" with
  | None => None
  | Some base =>
      let args :=
        if truthy base then update_args_from_toml args base else args in
      match args !! "config_file", args !! "base_config_file" with
      | Some config_file, Some base' =>
          let configs : option (list (gmap string V)) :=
            if truthy config_file
            then match py_iter config_file with
                 | Some paths => Some (update_args_from_toml args <$> paths)
                 | None => None
                 end
            else Some [args] in
          match configs with
          | None => None
          | Some configs =>
              Some (if truthy base' || truthy config_file
                    then (λ config, setattr_items config explicit_args)
                           <$> configs
                    else configs)
          end
      | _, _ => None
      end
  end.

End Namespaces.

(** Values for the examples: [None], integers, strings and lists of
    strings, and the tables of a TOML file that hold such values. *)
Inductive Scalar :=
  | SNone
  | SInt (z : Z)
  | SStr (s : string)
  | SStrs (l : list string).

Inductive Obj :=
  | Plain (v : Scalar)
  | Table (items : list (string * Scalar)).

Definition obj_as_dict (v : Obj) : option (list (string * Obj)) :=
  match v with
  | Table items => Some (prod_map id Plain <$> items)
  | Plain _ => None
  end.

Definition obj_truthy (v : Obj) : bool :=
  match v with
  | Plain SNone => false
  | Plain (SInt z) => negb (z =? 0)
  | Plain (SStr s) => negb (bool_decide (s = ""))
  | Plain (SStrs l) => negb (bool_decide (l = []))
  | Table items => negb (bool_decide (items = []))
  end.

(** The characters of a string, each as a string. *)
Fixpoint chars (s : string) : list string :=
  match s with
  | EmptyString => []
  | String c rest => String c EmptyString :: chars rest
  end.

Definition obj_iter (v : Obj) : option (list Obj) :=
  match v with
  | Plain (SStrs l) => Some (Plain ∘ SStr <$> l)
  | Plain (SStr s) => Some (Plain ∘ SStr <$> chars s)
  | Table items => Some (Plain ∘ SStr <$> items.*1)
  | Plain _ => None
  end.

(** Two configuration files, and the arguments of a run that names them
    and a third file that does not exist. *)
Definition example_files (path : Obj) : option (list (string * Obj)) :=
  match path with
  | Plain (SStr "base.toml") =>
      Some [("dst_dir", Plain (SStr "base_out"));
            ("general", Table [("start_stage", SInt 1); ("end_stage", SInt 7)])]
  | Plain (SStr "booru.toml") =>
      Some [("pipeline_type", Plain (SStr "booru"));
            ("end_stage", Plain (SInt 4))]
  | _ => None
  end.

Definition example_args : gmap string Obj :=
  list_to_map [("base_config_file", Plain (SStr "base.toml"));
               ("config_file", Plain (SStrs ["booru.toml"; "missing.toml"]));
               ("pipeline_type", Plain (SStr "screenshots"));
               ("dst_dir", Plain (SStr "default_out"));
               ("log_dir", Plain (SStr "logs"))].

Definition example_explicit : list (string * Obj) :=
  [("dst_dir", Plain (SStr "cli_out"))].

(** ** Example batches *)

(** Scenario A of the specification: a booru record that adds to the
    reference directory, and a record that reads the same directory. *)
Definition booru_r1 : Config :=
  mkConfig "booru" "booru" "out" "" (Some "r1") 1 1 7.

Definition screenshots_r1 : Config :=
  mkConfig "screenshots" "screenshots" "out" "" (Some "r1") 0 1 7.

Definition scenario_A : list Config := [booru_r1; screenshots_r1].

(** The same two records written to another folder. *)
Definition scenario_A_moved : list Config :=
  [mkConfig "booru" "booru" "elsewhere" "x" (Some "r1") 1 2 5;
   mkConfig "screenshots" "frames" "elsewhere" "y" (Some "r1") 0 1 3].

(** Scenario D: a record that runs stages 5 to 7 only. *)
Definition scenario_D : list Config :=
  [mkConfig "screenshots" "screenshots" "out" "" (Some "r1") 0 5 7].

(** A provider that starts after stage 3, and a record that depends on it
    and starts at stage 3. *)
Definition late_provider : list Config :=
  [mkConfig "booru" "booru" "out" "" (Some "r1") 1 4 7;
   mkConfig "screenshots" "screenshots" "out" "" (Some "r1") 0 3 7].

(** A record whose first stage comes after its last. *)
Definition reversed_range : list Config :=
  [mkConfig "screenshots" "screenshots" "out" "" None 0 5 3].

(** Two records that read the reference directory of one booru record. *)
Definition two_dependents : list Config :=
  [booru_r1; screenshots_r1;
   mkConfig "screenshots" "frames" "out" "" (Some "r1") 0 2 5].

(** Two records that leave [image_type] unset and share the folder and
    the pipeline type. *)
Definition same_folder : list Args :=
  [mkArgs "screenshots" None "out" "" None 0 (VInt 1) (VInt 7);
   mkArgs "screenshots" (Some "") "out" "" None 0 (VStr "crop") (VInt 4)].

(** A record with a reference directory of its own, next to the two
    records of scenario A: it provides for no record and depends on none. *)
Definition unrelated_failure : list Config :=
  [mkConfig "screenshots" "frames" "out" "" (Some "r2") 0 1 2;
   booru_r1; screenshots_r1].

Section Scheduler.

Set Default Proof Using "Type".

(** Python's [int] on a string; [None] stands for its [ValueError]. *)
Variable int_of_str : string → option Z.

(** Whether the stage function called for configuration [config_index] at
    stage [stage_num] returns normally ([true]) or raises ([false]).  Each
    pair is called at most once in a run, so a function is general enough. *)
Variable stage_returns : nat → Z → bool.

(** [int(v)] *)
Definition py_int (v : PyVal) : option Z :=
  match v with
  | VInt z => Some z
  | VStr s => int_of_str s
  end.

(** [setup_args]; [None] is the [ValueError] of [int].  The function reads
    the global [config], which is the very record it is called on. *)
Definition setup_args (args : Args) : option Config :=
  start ← py_int (resolve_alias (arg_start_stage args));
  stop ← py_int (resolve_alias (arg_end_stage args));
  Some {| pipeline_type := arg_pipeline_type args;
          image_type := effective_image_type args;
          dst_dir := arg_dst_dir args;
          extra_path_component := arg_extra_path_component args;
          character_ref_dir := arg_character_ref_dir args;
          n_add_to_ref_per_character := arg_n_add_to_ref_per_character args;
          start_stage := start;
          end_stage := stop |}.

(** The loop of lines 550-559; [None] is a [ValueError], raised by
    [setup_args] or by the duplicate check. *)
Fixpoint process_configs (dst_folder_set : gset (string * string * string))
    (l : list Args) : option (list Config) :=
  match l with
  | [] => Some []
  | args :: rest =>
      config ← setup_args args;
      if bool_decide (dst_folder config ∈ dst_folder_set) then None
      else
        configs ← process_configs ({[dst_folder config]} ∪ dst_folder_set) rest;
        Some (config :: configs)
  end.

(** [run_stage]: look the stage function up, call it, set the event.
    Returns the exception raised, if any, with the events and the log. *)
Definition run_stage (config_index : nat) (stage_num : Z)
    (evs : list (gmap Z bool)) (log : list (nat * Z * bool))
    : option Exn * list (gmap Z bool) * list (nat * Z * bool) :=
  match STAGE_FUNCTIONS stage_num with
  | None => (Some KeyError, evs, log)
  | Some _ =>
      if stage_returns config_index stage_num then
        match set_event evs config_index stage_num with
        | inl e => (Some e, evs, log ++ [(config_index, stage_num, true)])
        | inr evs' => (None, evs', log ++ [(config_index, stage_num, true)])
        end
      else
        (Some (StageFailure config_index stage_num), evs,
         log ++ [(config_index, stage_num, false)])
  end.

(** One step of the [run_pipeline] coroutine of configuration
    [config_index]; [None] when it cannot move: it is suspended on events
    that are not all set, it has finished, or there is no such runner. *)
Definition run_pipeline_step (stage3_dependencies : gmap nat (list nat))
    (config_index : nat) (σ : Sys) : option Sys :=
  r ← runners σ !! config_index;
  match r with
  | AtLoop [] => Some (set_runner config_index Completed σ)
  | AtLoop (stage_num :: todo) =>
      if bool_decide (stage_num = 3) then
        match stage3_dependencies !! config_index with
        | Some providers =>
            match provider_events (stage_events σ) providers with
            | inl e => Some (set_runner config_index (Failed e) σ)
            | inr _ =>
                Some (set_runner config_index
                        (Waiting providers stage_num todo) σ)
            end
        | None => Some (set_runner config_index (Dispatching stage_num todo) σ)
        end
      else Some (set_runner config_index (Dispatching stage_num todo) σ)
  | Waiting providers stage_num todo =>
      if all_set (stage_events σ) providers
      then Some (set_runner config_index (Dispatching stage_num todo) σ)
      else None
  | Dispatching stage_num todo =>
      let '(exn, evs, log) :=
        run_stage config_index stage_num (stage_events σ) (calls σ) in
      Some {| stage_events := evs;
              runners := <[config_index :=
                             match exn with
                             | None => AtLoop todo
                             | Some e => Failed e
                             end]> (runners σ);
              calls := log |}
  | Completed => None
  | Failed _ => None
  end.

(** Any runner that can move may move next.  Every schedule of the event
    loop is one such interleaving: a runner the loop never resumes, or
    cancels while it is suspended, simply takes no further step. *)
Definition sys_step (configs : list Config) (σ σ' : Sys) : Prop :=
  ∃ i, run_pipeline_step (identify_dependencies configs) i σ = Some σ'.

Definition reachable (configs : list Config) (σ : Sys) : Prop :=
  rtc (sys_step configs) (main_init configs) σ.

(** ** Invariants of a run *)

(** Calls of the stages [pre] that all returned. *)
Definition ok_calls (pre : list Z) : list (Z * bool) := (λ s, (s, true)) <$> pre.

(** What the state of a runner says about the calls it has made: they
    are the stages of its range up to where it stands, all returned but
    the last one of a runner that failed in a stage function.  A runner
    waits at stage 3 only, on the providers the resolver gave it, and is
    past the wait only when the events of these providers are set. *)
Definition runner_inv (stage3_dependencies : gmap nat (list nat))
    (i : nat) (config : Config) (evs : list (gmap Z bool))
    (log : list (nat * Z * bool)) (r : Runner) : Prop :=
  let stages := range (start_stage config) (end_stage config + 1) in
  match r with
  | AtLoop todo =>
      ∃ pre, calls_of i log = ok_calls pre ∧ pre ++ todo = stages
  | Waiting providers stage_num todo =>
      stage_num = 3 ∧ stage3_dependencies !! i = Some providers ∧
      ∃ pre, calls_of i log = ok_calls pre ∧ pre ++ stage_num :: todo = stages
  | Dispatching stage_num todo =>
      (stage_num = 3 → ∀ providers,
         stage3_dependencies !! i = Some providers →
         all_set evs providers = true) ∧
      ∃ pre, calls_of i log = ok_calls pre ∧ pre ++ stage_num :: todo = stages
  | Completed => calls_of i log = ok_calls stages
  | Failed (StageFailure j stage_num) =>
      j = i ∧
      ∃ pre todo, calls_of i log = ok_calls pre ++ [(stage_num, false)] ∧
                  pre ++ stage_num :: todo = stages
  | Failed _ =>
      ∃ pre stage_num todo,
        pre ++ stage_num :: todo = stages ∧
        (calls_of i log = ok_calls pre ∨
         calls_of i log = ok_calls (pre ++ [stage_num]))
  end.

(** In the log, a call of stage 3 by a dependent comes after a call of
    stage 3 that returned, by each of its providers. *)
Definition log_ordered (stage3_dependencies : gmap nat (list nat))
    (log : list (nat * Z * bool)) : Prop :=
  ∀ before after i b providers j,
    log = before ++ (i, 3, b) :: after →
    stage3_dependencies !! i = Some providers →
    j ∈ providers →
    (j, 3, true) ∈ before.

Definition sys_inv (configs : list Config) (σ : Sys) : Prop :=
  length (runners σ) = length configs ∧
  (∀ i s b, (i, s, b) ∈ calls σ → (i < length configs)%nat) ∧
  (dom <$> stage_events σ) = (dom <$> init_events configs) ∧
  (∀ i s, get_event (stage_events σ) i s = inr true → (i, s, true) ∈ calls σ) ∧
  (∀ i config r,
     configs !! i = Some config → runners σ !! i = Some r →
     runner_inv (identify_dependencies configs) i config
       (stage_events σ) (calls σ) r) ∧
  log_ordered (identify_dependencies configs) (calls σ).

(** Runs a schedule: the list of the runners that move, in order. *)
Fixpoint run_schedule (configs : list Config) (schedule : list nat) (σ : Sys)
    : option Sys :=
  match schedule with
  | [] => Some σ
  | i :: rest =>
      σ' ← run_pipeline_step (identify_dependencies configs) i σ;
      run_schedule configs rest σ'
  end.

(** The logs of stage-function calls that the script can produce on the
    records [l]: none when the [__main__] block raises before
    [asyncio.run], those of the reachable states otherwise. *)
Definition script_log (l : list Args) (log : list (nat * Z * bool)) : Prop :=
  match process_configs ∅ l with
  | None => log = []
  | Some configs => ∃ σ, reachable configs σ ∧ calls σ = log
  end.

(** ** The moves of a runner, rule by rule *)

(** One rule per path through the loop body of [run_pipeline] and through
    [run_stage]; [run_pipeline_step] takes exactly these moves. *)
Inductive runner_move (stage3_dependencies : gmap nat (list nat)) (k : nat)
    (σ : Sys) : Sys → Prop :=
  | move_done :
      runners σ !! k = Some (AtLoop []) →
      runner_move stage3_dependencies k σ (set_runner k Completed σ)
  | move_enter s todo :
      runners σ !! k = Some (AtLoop (s :: todo)) →
      s ≠ 3 ∨ stage3_dependencies !! k = None →
      runner_move stage3_dependencies k σ
        (set_runner k (Dispatching s todo) σ)
  | move_wait todo providers flags :
      runners σ !! k = Some (AtLoop (3 :: todo)) →
      stage3_dependencies !! k = Some providers →
      provider_events (stage_events σ) providers = inr flags →
      runner_move stage3_dependencies k σ
        (set_runner k (Waiting providers 3 todo) σ)
  | move_wait_error todo providers e :
      runners σ !! k = Some (AtLoop (3 :: todo)) →
      stage3_dependencies !! k = Some providers →
      provider_events (stage_events σ) providers = inl e →
      runner_move stage3_dependencies k σ (set_runner k (Failed e) σ)
  | move_resume providers s todo :
      runners σ !! k = Some (Waiting providers s todo) →
      all_set (stage_events σ) providers = true →
      runner_move stage3_dependencies k σ
        (set_runner k (Dispatching s todo) σ)
  | move_no_function s todo :
      runners σ !! k = Some (Dispatching s todo) →
      STAGE_FUNCTIONS s = None →
      runner_move stage3_dependencies k σ (set_runner k (Failed KeyError) σ)
  | move_returned s todo evs' :
      runners σ !! k = Some (Dispatching s todo) →
      is_Some (STAGE_FUNCTIONS s) →
      stage_returns k s = true →
      set_event (stage_events σ) k s = inr evs' →
      runner_move stage3_dependencies k σ
        {| stage_events := evs';
           runners := <[k := AtLoop todo]> (runners σ);
           calls := calls σ ++ [(k, s, true)] |}
  | move_returned_error s todo e :
      runners σ !! k = Some (Dispatching s todo) →
      is_Some (STAGE_FUNCTIONS s) →
      stage_returns k s = true →
      set_event (stage_events σ) k s = inl e →
      runner_move stage3_dependencies k σ
        {| stage_events := stage_events σ;
           runners := <[k := Failed e]> (runners σ);
           calls := calls σ ++ [(k, s, true)] |}
  | move_raised s todo :
      runners σ !! k = Some (Dispatching s todo) →
      is_Some (STAGE_FUNCTIONS s) →
      stage_returns k s = false →
      runner_move stage3_dependencies k σ
        {| stage_events := stage_events σ;
           runners := <[k := Failed (StageFailure k s)]> (runners σ);
           calls := calls σ ++ [(k, s, false)] |}.

(** What holds of the events and of the failures in a run, besides
    [sys_inv]: stage functions are called for the stages of
    [STAGE_FUNCTIONS] only, the event of a call that returned is set, no
    runner fails on an index, and a runner waits on events that exist. *)
Definition signals_inv (σ : Sys) : Prop :=
  (∀ i s b, (i, s, b) ∈ calls σ → is_Some (STAGE_FUNCTIONS s)) ∧
  (∀ i s, (i, s, true) ∈ calls σ →
          get_event (stage_events σ) i s = inr true) ∧
  (∀ i e, runners σ !! i = Some (Failed e) → e ≠ IndexError) ∧
  (∀ i providers s todo,
     runners σ !! i = Some (Waiting providers s todo) →
     ∀ j, j ∈ providers → ∃ flag, get_event (stage_events σ) j 3 = inr flag).

(** A runner that has neither completed nor failed. *)
Definition running (r : Runner) : Prop :=
  match r with
  | Completed | Failed _ => False
  | _ => True
  end.

(** The steps that a runner has at most left to take: three for each
    stage that the loop has yet to yield and one to leave the loop. *)
Definition runner_weight (r : Runner) : nat :=
  match r with
  | AtLoop todo => 3 * length todo + 1
  | Waiting _ _ todo => 3 * length todo + 3
  | Dispatching _ todo => 3 * length todo + 2
  | Completed => 0
  | Failed _ => 0
  end.

Definition sys_weight (σ : Sys) : nat := sum_list (runner_weight <$> runners σ).

(** The state that a schedule leads to from the initial state; the initial
    state itself when the schedule asks a runner to move that cannot. *)
Definition state_after (configs : list Config) (schedule : list nat) : Sys :=
  default (main_init configs)
          (run_schedule configs schedule (main_init configs)).

(** ** Facts about the built-ins *)

Lemma elem_of_enumerate {A} (l : list A) i x :
  (i, x) ∈ enumerate l ↔ l !! i = Some x.
Proof.
  unfold enumerate. rewrite elem_of_lookup_imap. split.
  - intros (j & y & Heq & Hl). by simplify_eq.
  - intros Hl. eauto.
Qed.

Lemma enumerate_fst {A} (l : list A) : (enumerate l).*1 = seq 0 (length l).
Proof.
  unfold enumerate. rewrite fmap_imap.
  apply list_eq. intros i. rewrite list_lookup_imap.
  destruct (l !! i) as [x|] eqn:Hl; simpl.
  - symmetry. apply lookup_seq. split; [done|]. by eapply lookup_lt_Some.
  - symmetry. apply lookup_seq_ge. by apply lookup_ge_None.
Qed.

Lemma NoDup_enumerate_fst {A} (l : list A) : NoDup (enumerate l).*1.
Proof. rewrite enumerate_fst. apply NoDup_seq. Qed.

(** ** [identify_dependencies] *)

Lemma elem_of_dependent_configs configs config j :
  j ∈ dependent_configs configs config ↔
  ∃ p, configs !! j = Some p ∧
       character_ref_dir p = character_ref_dir config ∧
       pipeline_type p = "booru" ∧ n_add_to_ref_per_character p > 0.
Proof.
  unfold dependent_configs. rewrite list_elem_of_omap. split.
  - intros ([k p] & Hin & Hsel). apply elem_of_enumerate in Hin.
    unfold select_provider in Hsel. case_match eqn:Hcond; simplify_eq.
    apply andb_true_iff in Hcond as [Hcond Hn].
    apply andb_true_iff in Hcond as [Href Hty].
    apply bool_decide_eq_true in Href, Hty. apply Z.gtb_lt in Hn.
    exists p. repeat split; [done..|lia].
  - intros (p & Hl & Href & Hty & Hn). exists (j, p). split.
    + by apply elem_of_enumerate.
    + unfold select_provider. rewrite !bool_decide_eq_true_2 by done.
      replace (n_add_to_ref_per_character p >? 0) with true; [done|].
      symmetry. apply Z.gtb_lt. lia.
Qed.

Lemma select_provider_sublist config (l : list (nat * Config)) :
  omap (select_provider config) l `sublist_of` l.*1.
Proof.
  induction l as [|[j d] l IH]; [constructor|].
  cbn [omap list_omap fmap list_fmap select_provider].
  destruct (_ && _); simpl; by constructor.
Qed.

Lemma NoDup_dependent_configs configs config :
  NoDup (dependent_configs configs config).
Proof.
  eapply sublist_NoDup; [apply (NoDup_enumerate_fst configs)|].
  apply select_provider_sublist.
Qed.

Lemma identify_step_lookup configs m i config k :
  identify_step configs m (i, config) !! k =
  if decide (k = i)
  then from_option Some (m !! i) (stored_deps configs config)
  else m !! k.
Proof.
  unfold identify_step, stored_deps.
  destruct (negb _ || _); [|by case_decide; simplify_eq].
  destruct (dependent_configs configs config) as [|j deps].
  - by case_decide; simplify_eq.
  - case_decide; simplify_eq; [by rewrite lookup_insert_eq|].
    by rewrite lookup_insert_ne.
Qed.

Lemma foldl_identify_notin configs l m k :
  k ∉ l.*1 → foldl (identify_step configs) m l !! k = m !! k.
Proof.
  revert m. induction l as [|[i c] l IH]; intros m Hk; cbn [foldl]; [done|].
  rewrite fmap_cons, not_elem_of_cons in Hk. destruct Hk as [Hne Hk].
  rewrite IH by done. rewrite identify_step_lookup. by case_decide.
Qed.

Lemma foldl_identify_in configs l m i config :
  NoDup l.*1 → (i, config) ∈ l →
  foldl (identify_step configs) m l !! i =
  from_option Some (m !! i) (stored_deps configs config).
Proof.
  revert m. induction l as [|[i' c'] l IH]; intros m Hnd Hin; cbn [foldl].
  - by apply elem_of_nil in Hin.
  - rewrite fmap_cons in Hnd. apply NoDup_cons in Hnd as [Hfresh Hnd].
    simpl in Hfresh. apply elem_of_cons in Hin as [Heq|Hin].
    + simplify_eq. rewrite foldl_identify_notin by done.
      rewrite identify_step_lookup. by case_decide.
    + rewrite IH by done. rewrite identify_step_lookup.
      case_decide as Hi; [|done]. subst i'. exfalso. apply Hfresh.
      change i with ((i, config).1). by apply list_elem_of_fmap_2.
Qed.

Lemma identify_dependencies_lookup configs i :
  identify_dependencies configs !! i = configs !! i ≫= stored_deps configs.
Proof.
  unfold identify_dependencies.
  destruct (configs !! i) as [config|] eqn:Hi; simpl.
  - rewrite (foldl_identify_in _ _ _ _ config).
    + rewrite lookup_empty. by destruct (stored_deps configs config).
    + apply NoDup_enumerate_fst.
    + by apply elem_of_enumerate.
  - rewrite foldl_identify_notin; [apply lookup_empty|].
    rewrite enumerate_fst, elem_of_seq. apply lookup_ge_None in Hi. lia.
Qed.

Lemma stored_deps_Some configs config deps :
  stored_deps configs config = Some deps ↔
  deps = dependent_configs configs config ∧ deps ≠ [] ∧
  ¬ (pipeline_type config = "booru" ∧ n_add_to_ref_per_character config > 0).
Proof.
  unfold stored_deps.
  destruct (decide (pipeline_type config = "booru")) as [Hty|Hty];
    [rewrite (bool_decide_eq_true_2 _ Hty)|rewrite (bool_decide_eq_false_2 _ Hty)];
    simpl.
  - destruct (Z.leb_spec (n_add_to_ref_per_character config) 0).
    + destruct (dependent_configs configs config); split;
        [intros ?; simplify_eq|intros (?&?&?); by simplify_eq
        |intros ?; simplify_eq; repeat split; [done|lia]
        |intros (?&?&?); by simplify_eq].
    + split; [done|]. intros (_ & _ & Hno). exfalso. apply Hno. split; [done|lia].
  - destruct (dependent_configs configs config); split;
      [intros ?; simplify_eq|intros (?&?&?); by simplify_eq
      |intros ?; simplify_eq; repeat split; [done|by intros [? _]]
      |intros (?&?&?); by simplify_eq].
Qed.

Lemma select_provider_attrs config config' j d d' :
  dep_attrs config = dep_attrs config' → dep_attrs d = dep_attrs d' →
  select_provider config (j, d) = select_provider config' (j, d').
Proof.
  unfold dep_attrs, select_provider.
  intros [= _ _ Hr] [= Ht Hn Hr']. by rewrite Hr, Ht, Hn, Hr'.
Qed.

Lemma omap_select_provider_attrs config config' (f : nat → nat) l l' :
  dep_attrs config = dep_attrs config' →
  dep_attrs <$> l = dep_attrs <$> l' →
  omap (select_provider config) (imap (λ i x, (f i, x)) l) =
  omap (select_provider config') (imap (λ i x, (f i, x)) l').
Proof.
  intros Hc. revert f l'.
  induction l as [|d l IH]; intros f [|d' l'] Hl; try discriminate; [done|].
  rewrite !fmap_cons in Hl.
  assert (dep_attrs d = dep_attrs d' ∧ dep_attrs <$> l = dep_attrs <$> l')
    as [Hd Hl'] by (split; congruence).
  cbn [imap omap list_omap].
  rewrite (select_provider_attrs config config' (f 0%nat) d d') by done.
  change ((λ (i : nat) (x : Config), (f i, x)) ∘ S)
    with (λ (i : nat) (x : Config), ((f ∘ S) i, x)).
  by rewrite (IH (f ∘ S) l' Hl').
Qed.

Lemma stored_deps_attrs configs configs' config config' :
  dep_attrs <$> configs = dep_attrs <$> configs' →
  dep_attrs config = dep_attrs config' →
  stored_deps configs config = stored_deps configs' config'.
Proof.
  intros Hl Hc. unfold stored_deps, dependent_configs, enumerate.
  pose proof (omap_select_provider_attrs config config' (λ i, i)
                configs configs' Hc Hl) as Hdeps.
  simpl in Hdeps. rewrite Hdeps.
  unfold dep_attrs in Hc. injection Hc as Ht Hn _. by rewrite Ht, Hn.
Qed.

(** C1: [identify_dependencies] maps an index [i] to exactly the indices
    [j], each once, on which the specification says record [i] depends:
    [j] differs from [i], shares its [character_ref_dir], is a booru record
    with [n_add_to_ref_per_character > 0], and [i] is not itself such a
    record.  An index with no such provider is not a key. *)
Theorem identify_dependencies_spec (configs : list Config) (i : nat) :
  match identify_dependencies configs !! i with
  | Some deps =>
      NoDup deps ∧ deps ≠ [] ∧ ∀ j, j ∈ deps ↔ spec_depends_on configs i j
  | None => ∀ j, ¬ spec_depends_on configs i j
  end.
Proof.
  rewrite identify_dependencies_lookup.
  destruct (configs !! i) as [config|] eqn:Hi; simpl.
  - destruct (stored_deps configs config) as [deps|] eqn:Hst.
    + apply stored_deps_Some in Hst as (-> & Hne & Hexempt).
      split; [apply NoDup_dependent_configs|]. split; [done|].
      intros j. rewrite elem_of_dependent_configs. split.
      * intros (p & Hj & Href & Hty & Hn). split.
        { intros <-. apply Hexempt. rewrite Hi in Hj. by injection Hj as <-. }
        exists config, p. by repeat split.
      * intros (_ & r & p & Hr & Hp & Href & [Hty Hn] & _).
        rewrite Hi in Hr. injection Hr as <-.
        exists p. by repeat split.
    + intros j (_ & r & p & Hr & Hp & Href & [Hty Hn] & Hexempt).
      rewrite Hi in Hr. injection Hr as <-.
      assert (j ∈ dependent_configs configs config) as Hj.
      { apply elem_of_dependent_configs. exists p. by repeat split. }
      assert (stored_deps configs config
              = Some (dependent_configs configs config)) as Hs.
      { apply stored_deps_Some. repeat split; [|done].
        intros Hnil. rewrite Hnil in Hj. by apply elem_of_nil in Hj. }
      congruence.
  - intros j (_ & r & p & Hr & _). congruence.
Qed.

(** C8: a booru record with [n_add_to_ref_per_character > 0] is never a
    key of the result of [identify_dependencies]; and no index occurs in
    its own dependency list. *)
Theorem contributor_never_dependent (configs : list Config) (i : nat)
    (r : Config)
    (Hi : configs !! i = Some r)
    (Hty : pipeline_type r = "booru")
    (Hn : n_add_to_ref_per_character r > 0) :
  identify_dependencies configs !! i = None ∧
  ∀ k, k ∉ default [] (identify_dependencies configs !! k).
Proof.
  split.
  - rewrite identify_dependencies_lookup, Hi. simpl.
    destruct (stored_deps configs r) as [deps|] eqn:Hst; [|done].
    apply stored_deps_Some in Hst as (_ & _ & Hexempt). by destruct Hexempt.
  - intros k. rewrite identify_dependencies_lookup.
    destruct (configs !! k) as [c|] eqn:Hk; simpl; [|apply not_elem_of_nil].
    destruct (stored_deps configs c) as [deps|] eqn:Hst;
      simpl; [|apply not_elem_of_nil].
    apply stored_deps_Some in Hst as (-> & _ & Hexempt).
    rewrite elem_of_dependent_configs. intros (p & Hp & _ & Hpty & Hpn).
    apply Hexempt. rewrite Hk in Hp. by injection Hp as <-.
Qed.

(** C9: [identify_dependencies] is a function of its input alone, and of
    no more of it than the three attributes it reads: lists of records that
    agree on [pipeline_type], [n_add_to_ref_per_character] and
    [character_ref_dir], position by position, get the same mapping.  Two
    runs on the same list are the case of equal lists. *)
Theorem identify_dependencies_deterministic (configs configs' : list Config)
    (Hsame : dep_attrs <$> configs = dep_attrs <$> configs') :
  identify_dependencies configs = identify_dependencies configs'.
Proof.
  apply map_eq. intros i. rewrite !identify_dependencies_lookup.
  assert ((dep_attrs <$> configs) !! i = (dep_attrs <$> configs') !! i) as Hi
    by by rewrite Hsame.
  rewrite !list_lookup_fmap in Hi.
  destruct (configs !! i) as [c|], (configs' !! i) as [c'|];
    try discriminate; [|done].
  simpl in *. apply stored_deps_attrs; congruence.
Qed.

(** ** The [__main__] block *)

Lemma setup_args_folder args config :
  setup_args args = Some config → dst_folder config = folder_key args.
Proof.
  unfold setup_args. intros Hs.
  destruct (py_int (resolve_alias (arg_start_stage args))); [|done].
  destruct (py_int (resolve_alias (arg_end_stage args))); [|done].
  simpl in Hs. by injection Hs as <-.
Qed.

Lemma process_configs_seen seen l args :
  args ∈ l → folder_key args ∈ seen → process_configs seen l = None.
Proof.
  revert seen. induction l as [|a l IH]; intros seen Hin Hseen.
  - by apply elem_of_nil in Hin.
  - cbn [process_configs].
    destruct (setup_args a) as [config|] eqn:Hsetup; [|done]. simpl.
    apply setup_args_folder in Hsetup.
    case_bool_decide as Hdup; [done|].
    apply elem_of_cons in Hin as [->|Hin]; [by rewrite Hsetup in Hdup|].
    rewrite (IH ({[dst_folder config]} ∪ seen)); [done..|].
    apply elem_of_union. by right.
Qed.

Lemma process_configs_duplicate seen l i j a b :
  (i < j)%nat → l !! i = Some a → l !! j = Some b →
  folder_key a = folder_key b →
  process_configs seen l = None.
Proof.
  revert seen i j.
  induction l as [|x l IH]; intros seen i j Hij Ha Hb Hkey; [done|].
  cbn [process_configs].
  destruct (setup_args x) as [config|] eqn:Hsetup; [|done]. simpl.
  case_bool_decide; [done|].
  destruct j as [|j]; [lia|]. destruct i as [|i]; simpl in Ha, Hb.
  - injection Ha as ->.
    rewrite (process_configs_seen _ l b); [done| |].
    + by eapply list_elem_of_lookup_2.
    + apply setup_args_folder in Hsetup. rewrite Hsetup, Hkey.
      apply elem_of_union. left. by apply elem_of_singleton.
  - rewrite (IH _ i j); [done|lia|done..].
Qed.

(** C6: when two records of the batch have the same
    [(dst_dir, extra_path_component, image_type)], the loop of the
    [__main__] block raises, so that [asyncio.run(main(configs))] is never
    reached, and the log of stage-function calls of the script is empty. *)
Theorem duplicate_folder_rejected (l : list Args) (i j : nat) (a b : Args)
    (Hij : i ≠ j)
    (Ha : l !! i = Some a)
    (Hb : l !! j = Some b)
    (Hkey : folder_key a = folder_key b) :
  process_configs ∅ l = None ∧ ∀ log, script_log l log → log = [].
Proof.
  assert (process_configs ∅ l = None) as Hrej.
  { destruct (decide (i < j)%nat).
    - by eapply (process_configs_duplicate _ l i j).
    - eapply (process_configs_duplicate _ l j i); [lia|done..]. }
  split; [done|]. unfold script_log. by rewrite Hrej.
Qed.

(** ** The log, the events and the range *)

Lemma elem_of_range lo hi s : s ∈ range lo hi ↔ lo ≤ s < hi.
Proof. unfold range. rewrite elem_of_seqZ. lia. Qed.

Lemma NoDup_range lo hi : NoDup (range lo hi).
Proof. apply NoDup_seqZ. Qed.

Lemma range_empty lo hi : hi ≤ lo → range lo hi = [].
Proof.
  intros Hle. unfold range, seqZ.
  replace (Z.to_nat (hi - lo)) with 0%nat by lia. done.
Qed.

Lemma calls_of_app i l1 l2 :
  calls_of i (l1 ++ l2) = calls_of i l1 ++ calls_of i l2.
Proof. apply omap_app. Qed.

Lemma calls_of_snoc i log k s b :
  calls_of i (log ++ [(k, s, b)]) =
  if decide (k = i) then calls_of i log ++ [(s, b)] else calls_of i log.
Proof.
  rewrite calls_of_app. unfold calls_of at 2. simpl.
  case_bool_decide; case_decide; try done. by rewrite app_nil_r.
Qed.

Lemma elem_of_calls_of i log s b : (s, b) ∈ calls_of i log ↔ (i, s, b) ∈ log.
Proof.
  unfold calls_of. rewrite list_elem_of_omap. split.
  - intros ([[j s'] b'] & Hin & Hsel).
    case_bool_decide; [|done]. by simplify_eq.
  - intros Hin. exists (i, s, b). split; [done|].
    by rewrite bool_decide_eq_true_2.
Qed.

Lemma elem_of_ok_calls pre s b : (s, b) ∈ ok_calls pre ↔ s ∈ pre ∧ b = true.
Proof.
  unfold ok_calls. rewrite list_elem_of_fmap. split.
  - intros (s' & Heq & Hin). by simplify_eq.
  - intros [Hin ->]. eauto.
Qed.

Lemma ok_calls_fst pre : (ok_calls pre).*1 = pre.
Proof.
  unfold ok_calls. rewrite <- list_fmap_compose.
  induction pre as [|s pre IH]; [done|]. simpl. by f_equal.
Qed.

Lemma ok_calls_snoc pre s : ok_calls (pre ++ [s]) = ok_calls pre ++ [(s, true)].
Proof. unfold ok_calls. by rewrite fmap_app. Qed.

Lemma get_event_set_event evs k s evs' i s' :
  set_event evs k s = inr evs' →
  get_event evs' i s' =
  if decide (i = k ∧ s' = s) then inr true else get_event evs i s'.
Proof.
  unfold set_event, get_event. intros Hset.
  destruct (evs !! k) as [d|] eqn:Hk; [|done].
  destruct (d !! s) as [flag|] eqn:Hs; [|done]. injection Hset as <-.
  destruct (decide (i = k)) as [->|Hne].
  - rewrite list_lookup_insert_eq by by eapply lookup_lt_Some.
    rewrite Hk. destruct (decide (s' = s)) as [->|Hs'].
    + rewrite lookup_insert_eq. by rewrite decide_True.
    + rewrite lookup_insert_ne by done.
      rewrite decide_False by (by intros [_ ?]). done.
  - rewrite list_lookup_insert_ne by done.
    rewrite decide_False by (by intros [? _]). done.
Qed.

Lemma set_event_mono evs k s evs' i s' :
  set_event evs k s = inr evs' →
  get_event evs i s' = inr true → get_event evs' i s' = inr true.
Proof.
  intros Hset Hget. rewrite (get_event_set_event _ _ _ _ _ _ Hset).
  by case_decide.
Qed.

Lemma set_event_dom evs k s evs' :
  set_event evs k s = inr evs' →
  dom <$> evs' = (dom <$> evs : list (gset Z)).
Proof.
  unfold set_event. intros Hset.
  destruct (evs !! k) as [d|] eqn:Hk; [|done].
  destruct (d !! s) as [flag|] eqn:Hs; [|done]. injection Hset as <-.
  rewrite list_fmap_insert. apply list_insert_id.
  rewrite list_lookup_fmap, Hk. simpl. f_equal.
  rewrite dom_insert_L. apply elem_of_dom_2 in Hs.
  symmetry. apply subseteq_union_1_L. by apply singleton_subseteq_l.
Qed.

Lemma set_event_not_failure evs k s e j s' :
  set_event evs k s = inl e → e ≠ StageFailure j s'.
Proof.
  unfold set_event. intros Hset.
  destruct (evs !! k) as [d|]; [|by injection Hset as <-].
  destruct (d !! s); [done|by injection Hset as <-].
Qed.

Lemma provider_events_not_failure evs l e j s :
  provider_events evs l = inl e → e ≠ StageFailure j s.
Proof.
  induction l as [|k l IH]; simpl; [done|].
  destruct (get_event evs k 3) as [e'|flag] eqn:Hget.
  - intros [= <-]. unfold get_event in Hget.
    destruct (evs !! k) as [d|]; [|by injection Hget as <-].
    destruct (d !! 3); [done|by injection Hget as <-].
  - destruct (provider_events evs l); [|done]. intros [= <-]. by apply IH.
Qed.

Lemma all_set_elem evs l j :
  all_set evs l = true → j ∈ l → get_event evs j 3 = inr true.
Proof.
  unfold all_set. rewrite forallb_forall. intros Hall Hj.
  apply list_elem_of_In, Hall in Hj.
  by destruct (get_event evs j 3) as [|[]].
Qed.

Lemma all_set_mono evs evs' l :
  (∀ j, get_event evs j 3 = inr true → get_event evs' j 3 = inr true) →
  all_set evs l = true → all_set evs' l = true.
Proof.
  intros Hmono Hall. unfold all_set. apply forallb_forall. intros j Hj.
  apply list_elem_of_In in Hj. by rewrite (Hmono j (all_set_elem _ _ _ Hall Hj)).
Qed.

(** ** The invariant holds in every reachable state *)

Lemma init_events_lookup configs i d s flag :
  init_events configs !! i = Some d → d !! s = Some flag → flag = false.
Proof.
  unfold init_events. rewrite list_lookup_fmap.
  destruct (configs !! i) as [config|]; [|done]. intros [= <-] Hs.
  apply elem_of_list_to_map_2, list_elem_of_fmap in Hs as (s' & Heq & _).
  by simplify_eq.
Qed.

Lemma get_event_init configs i s : get_event (init_events configs) i s ≠ inr true.
Proof.
  unfold get_event.
  destruct (init_events configs !! i) as [d|] eqn:Hi; [|done].
  destruct (d !! s) as [flag|] eqn:Hs; [|done].
  by rewrite (init_events_lookup _ _ _ _ _ Hi Hs).
Qed.

Lemma sys_inv_init configs : sys_inv configs (main_init configs).
Proof.
  split; [by simpl; rewrite length_fmap|]. split; [|split; [done|split; [|split]]].
  - intros i s b Hin. by apply elem_of_nil in Hin.
  - intros i s Hget. by apply get_event_init in Hget.
  - intros i config r Hi. simpl. rewrite list_lookup_fmap, Hi. intros [= <-].
    by exists [].
  - intros before after i b providers j Hlog. by destruct before.
Qed.

Lemma runner_inv_other deps i config evs evs' log log' r :
  calls_of i log' = calls_of i log →
  (∀ j, get_event evs j 3 = inr true → get_event evs' j 3 = inr true) →
  runner_inv deps i config evs log r → runner_inv deps i config evs' log' r.
Proof.
  intros Hlog Hmono. unfold runner_inv. rewrite Hlog.
  destruct r as [| | | |e]; try done.
  intros [Hset Hpre]. split; [|done].
  intros H3 providers Hdeps. eapply all_set_mono; [done|]. by apply Hset.
Qed.

Lemma sys_inv_set_runner configs σ k r r' :
  sys_inv configs σ → runners σ !! k = Some r →
  (∀ config, configs !! k = Some config →
     runner_inv (identify_dependencies configs) k config
       (stage_events σ) (calls σ) r →
     runner_inv (identify_dependencies configs) k config
       (stage_events σ) (calls σ) r') →
  sys_inv configs (set_runner k r' σ).
Proof.
  intros (Hlen & Hidx & Hdom & Hev & Hrun & Hord) Hk Hnew.
  split; [by simpl; rewrite length_insert|].
  split; [done|]. split; [done|]. split; [done|]. split; [|done].
  intros i config r0 Hi. simpl. destruct (decide (i = k)) as [->|Hne].
  - rewrite list_lookup_insert_eq by by eapply lookup_lt_Some.
    intros [= <-]. apply Hnew; [done|]. by apply Hrun.
  - rewrite list_lookup_insert_ne by done. by apply Hrun.
Qed.

Lemma identify_dependencies_key configs i providers :
  identify_dependencies configs !! i = Some providers →
  is_Some (configs !! i).
Proof.
  rewrite identify_dependencies_lookup. by destruct (configs !! i).
Qed.

Lemma sys_inv_call configs σ k s todo b evs' r' :
  sys_inv configs σ → runners σ !! k = Some (Dispatching s todo) →
  dom <$> evs' = (dom <$> stage_events σ : list (gset Z)) →
  (∀ i s', get_event evs' i s' = inr true →
           get_event (stage_events σ) i s' = inr true ∨
           (i = k ∧ s' = s ∧ b = true)) →
  (∀ i s', get_event (stage_events σ) i s' = inr true →
           get_event evs' i s' = inr true) →
  (∀ config, configs !! k = Some config →
     runner_inv (identify_dependencies configs) k config
       (stage_events σ) (calls σ) (Dispatching s todo) →
     runner_inv (identify_dependencies configs) k config
       evs' (calls σ ++ [(k, s, b)]) r') →
  sys_inv configs {| stage_events := evs';
                     runners := <[k := r']> (runners σ);
                     calls := calls σ ++ [(k, s, b)] |}.
Proof.
  intros (Hlen & Hidx & Hdom & Hev & Hrun & Hord) Hk Hdom' Hnew Hmono Hinv.
  split; [by simpl; rewrite length_insert|].
  split; [|split; [by rewrite <- Hdom|split; [|split]]]; simpl.
  - intros i s' b' [Hin|Hin%list_elem_of_singleton]%elem_of_app; [by eauto|].
    injection Hin as -> _ _. rewrite <- Hlen. by eapply lookup_lt_Some.
  - intros i s' Hget. apply elem_of_app.
    destruct (Hnew _ _ Hget) as [Hold|(-> & -> & ->)].
    + left. by apply Hev.
    + right. by apply list_elem_of_singleton.
  - intros i config r0 Hi. destruct (decide (i = k)) as [->|Hne].
    + rewrite list_lookup_insert_eq by by eapply lookup_lt_Some.
      intros [= <-]. apply Hinv; [done|]. by apply Hrun.
    + rewrite list_lookup_insert_ne by done. intros Hr0.
      eapply runner_inv_other; [| |by apply Hrun].
      * rewrite calls_of_snoc. by rewrite decide_False.
      * intros j. apply Hmono.
  - intros before after i b' providers j Hlog Hdeps Hj.
    destruct after as [|last after _] using rev_ind.
    + apply app_inj_tail in Hlog as [<- [= -> -> ->]].
      apply Hev.
      destruct (identify_dependencies_key _ _ _ Hdeps) as [config Hconfig].
      destruct (Hrun _ _ _ Hconfig Hk) as [Hset _].
      eapply all_set_elem; [|done]. by apply Hset.
    + rewrite app_comm_cons, app_assoc in Hlog.
      apply app_inj_tail in Hlog as [Hlog _]. by eapply Hord.
Qed.

Lemma runner_inv_failed deps i config evs log e pre s todo :
  (∀ j s', e ≠ StageFailure j s') →
  pre ++ s :: todo = range (start_stage config) (end_stage config + 1) →
  calls_of i log = ok_calls pre ∨ calls_of i log = ok_calls (pre ++ [s]) →
  runner_inv deps i config evs log (Failed e).
Proof.
  intros He Hpre Hlog. destruct e as [| |j s']; simpl; eauto.
  by destruct (He j s').
Qed.

Lemma sys_inv_step configs σ k σ' :
  sys_inv configs σ →
  run_pipeline_step (identify_dependencies configs) k σ = Some σ' →
  sys_inv configs σ'.
Proof.
  intros Hinv Hstep. unfold run_pipeline_step in Hstep.
  destruct (runners σ !! k) as [r|] eqn:Hk; [|done]. simpl in Hstep.
  destruct r as [[|s todo]|providers s todo|s todo| |e]; try done.
  - (* the range is exhausted *)
    injection Hstep as <-. eapply sys_inv_set_runner; [done..|].
    intros config _ (pre & Hlog & Hpre). simpl.
    rewrite app_nil_r in Hpre. by rewrite Hlog, Hpre.
  - (* the head of the loop *)
    assert (∀ config, configs !! k = Some config →
      runner_inv (identify_dependencies configs) k config
        (stage_events σ) (calls σ) (AtLoop (s :: todo)) →
      identify_dependencies configs !! k = None ∨ s ≠ 3 →
      runner_inv (identify_dependencies configs) k config
        (stage_events σ) (calls σ) (Dispatching s todo)) as Hgo.
    { intros config _ Hpre Hfree. split; [|done].
      intros -> providers Hdeps. destruct Hfree; congruence. }
    case_bool_decide as Hs.
    + destruct (identify_dependencies configs !! k) as [providers|] eqn:Hdeps.
      * destruct (provider_events (stage_events σ) providers) as [e|flags]
          eqn:Hprov; injection Hstep as <-;
          (eapply sys_inv_set_runner; [done..|]);
          intros config _ (pre & Hlog & Hpre).
        -- eapply runner_inv_failed; [|done|by left].
           intros j s'. by eapply provider_events_not_failure.
        -- simpl. eauto.
      * injection Hstep as <-. eapply sys_inv_set_runner; [done..|].
        intros config Hconfig Hpre. apply Hgo; auto.
    + injection Hstep as <-. eapply sys_inv_set_runner; [done..|].
      intros config Hconfig Hpre. apply Hgo; auto.
  - (* the awaited gather returns *)
    destruct (all_set (stage_events σ) providers) eqn:Hset; [|done].
    injection Hstep as <-. eapply sys_inv_set_runner; [done..|].
    intros config _ (_ & Hdeps & Hpre). split; [|done].
    intros _ providers' Hdeps'. congruence.
  - (* run_stage *)
    unfold run_stage in Hstep.
    destruct (STAGE_FUNCTIONS s) as [fn|].
    + destruct (stage_returns k s) eqn:Hret.
      * destruct (set_event (stage_events σ) k s) as [e|evs'] eqn:Hevs;
          injection Hstep as <-.
        -- eapply sys_inv_call; [done..|auto|auto|].
           intros config _ (_ & pre & Hlog & Hpre).
           eapply (runner_inv_failed _ _ _ _ _ _ pre s todo); [|done|].
           ++ intros j s'. by eapply set_event_not_failure.
           ++ right. rewrite calls_of_snoc, decide_True by done.
              by rewrite Hlog, ok_calls_snoc.
        -- eapply sys_inv_call; [done..| | | |].
           ++ by eapply set_event_dom.
           ++ intros i s'. rewrite (get_event_set_event _ _ _ _ _ _ Hevs).
              case_decide as Hnew; [right|by left].
              by destruct Hnew.
           ++ intros i s'. by apply (set_event_mono _ _ _ _ _ _ Hevs).
           ++ intros config _ (_ & pre & Hlog & Hpre). exists (pre ++ [s]).
              rewrite calls_of_snoc, decide_True by done.
              rewrite Hlog, ok_calls_snoc. by rewrite <- app_assoc.
      * injection Hstep as <-. eapply sys_inv_call; [done..|auto|auto|].
        intros config _ (_ & pre & Hlog & Hpre). split; [done|].
        exists pre, todo. rewrite calls_of_snoc, decide_True by done.
        by rewrite Hlog.
    + injection Hstep as <-. apply (sys_inv_set_runner _ _ _ _ _ Hinv Hk).
      intros config _ (_ & pre & Hlog & Hpre).
      by eapply (runner_inv_failed _ _ _ _ _ _ pre s todo); [|done|left].
Qed.

Lemma reachable_inv configs σ : reachable configs σ → sys_inv configs σ.
Proof.
  unfold reachable. revert σ. apply rtc_ind_r.
  - apply sys_inv_init.
  - intros σ1 σ2 _ [k Hstep] IH. by eapply sys_inv_step.
Qed.

(** ** Steps and reachability *)

Lemma reachable_step configs σ k σ' :
  reachable configs σ →
  run_pipeline_step (identify_dependencies configs) k σ = Some σ' →
  reachable configs σ'.
Proof. intros Hreach Hstep. eapply rtc_r; [done|]. by exists k. Qed.

Lemma reachable_rtc configs σ σ' :
  reachable configs σ → rtc (sys_step configs) σ σ' → reachable configs σ'.
Proof. intros Hreach Hsteps. by eapply rtc_trans. Qed.

Lemma run_schedule_rtc configs schedule σ σ' :
  run_schedule configs schedule σ = Some σ' → rtc (sys_step configs) σ σ'.
Proof.
  revert σ. induction schedule as [|k schedule IH]; intros σ Hrun; simpl in Hrun.
  - by injection Hrun as <-.
  - destruct (run_pipeline_step _ k σ) as [σ1|] eqn:Hstep; [|done].
    eapply rtc_l; [by exists k|]. by apply IH.
Qed.

Lemma run_schedule_reachable configs schedule σ :
  run_schedule configs schedule (main_init configs) = Some σ →
  reachable configs σ.
Proof. apply run_schedule_rtc. Qed.

Lemma snoc_neq {A} (l : list A) x : l ≠ l ++ [x].
Proof.
  intros Heq. apply (f_equal length) in Heq.
  rewrite length_app in Heq. simpl in Heq. lia.
Qed.

(** A step that adds a call to the log is the call of [run_stage] by a
    runner that stood before it; a call that raised leaves the events as
    they were and the runner failed. *)
Lemma step_call_inv deps k σ σ' i s b :
  run_pipeline_step deps k σ = Some σ' →
  calls σ' = calls σ ++ [(i, s, b)] →
  i = k ∧ stage_returns k s = b ∧
  (∃ todo, runners σ !! k = Some (Dispatching s todo)) ∧
  (b = false →
   stage_events σ' = stage_events σ ∧
   runners σ' = <[k := Failed (StageFailure k s)]> (runners σ)).
Proof.
  unfold run_pipeline_step. intros Hstep Hlog.
  destruct (runners σ !! k) as [r|] eqn:Hk; [|done]. simpl in Hstep.
  destruct r as [[|s0 todo]|providers s0 todo|s0 todo| |e]; try done;
    try (injection Hstep as <-; by apply snoc_neq in Hlog).
  - repeat case_match; injection Hstep as <-; by apply snoc_neq in Hlog.
  - case_match; [|done]. injection Hstep as <-. by apply snoc_neq in Hlog.
  - unfold run_stage in Hstep. destruct (STAGE_FUNCTIONS s0).
    + destruct (stage_returns k s0) eqn:Hret.
      * destruct (set_event (stage_events σ) k s0);
          injection Hstep as <-; simpl in Hlog;
          apply app_inj_tail in Hlog as [_ [= -> -> <-]];
          (split; [done|split; [done|split; [by eexists|done]]]).
      * injection Hstep as <-. simpl in Hlog.
        apply app_inj_tail in Hlog as [_ [= -> -> <-]].
        split; [done|split; [done|split; [by eexists|done]]].
    + injection Hstep as <-. by apply snoc_neq in Hlog.
Qed.

(** The step of one runner leaves the other runners and their calls. *)
Lemma step_other deps k σ σ' i :
  run_pipeline_step deps k σ = Some σ' → i ≠ k →
  runners σ' !! i = runners σ !! i ∧
  calls_of i (calls σ') = calls_of i (calls σ).
Proof.
  unfold run_pipeline_step. intros Hstep Hne.
  destruct (runners σ !! k) as [r|] eqn:Hk; [|done]. simpl in Hstep.
  assert (∀ r', runners (set_runner k r' σ) !! i = runners σ !! i) as Hset.
  { intros r'. simpl. by rewrite list_lookup_insert_ne. }
  destruct r as [[|s0 todo]|providers s0 todo|s0 todo| |e]; try done.
  - by injection Hstep as <-.
  - repeat case_match; by injection Hstep as <-.
  - case_match; [|done]. by injection Hstep as <-.
  - unfold run_stage in Hstep.
    destruct (STAGE_FUNCTIONS s0);
      [destruct (stage_returns k s0);
         [destruct (set_event (stage_events σ) k s0)|]|];
      injection Hstep as <-; simpl;
      rewrite ?calls_of_snoc, ?decide_False by congruence;
      by rewrite list_lookup_insert_ne.
Qed.

Lemma step_failed deps k σ e :
  runners σ !! k = Some (Failed e) → run_pipeline_step deps k σ = None.
Proof. unfold run_pipeline_step. by intros ->. Qed.

Lemma main_outcome_raised σ i e :
  runners σ !! i = Some (Failed e) → main_outcome σ = Raised.
Proof.
  intros Hi. unfold main_outcome.
  replace (existsb is_failed (runners σ)) with true; [done|].
  symmetry. apply existsb_exists. exists (Failed e). split; [|done].
  apply list_elem_of_In. by eapply list_elem_of_lookup_2.
Qed.

Lemma reachable_runner configs σ i :
  reachable configs σ → (i < length configs)%nat →
  ∃ config r, configs !! i = Some config ∧ runners σ !! i = Some r ∧
    runner_inv (identify_dependencies configs) i config
      (stage_events σ) (calls σ) r.
Proof.
  intros (Hlen & _ & _ & _ & Hrun & _)%reachable_inv Hi.
  destruct (lookup_lt_is_Some_2 configs i Hi) as [config Hconfig].
  destruct (lookup_lt_is_Some_2 (runners σ) i) as [r Hr]; [lia|].
  exists config, r. eauto.
Qed.

Lemma runner_inv_stages deps i config evs log r :
  runner_inv deps i config evs log r →
  stages_of i log `prefix_of` range (start_stage config) (end_stage config + 1) ∧
  (r = Completed →
   stages_of i log = range (start_stage config) (end_stage config + 1)) ∧
  (∀ providers s todo, r = Waiting providers s todo →
     s = 3 ∧ s ∈ range (start_stage config) (end_stage config + 1)).
Proof.
  unfold stages_of.
  destruct r as [todo|providers s todo|s todo| |e]; simpl.
  - intros (pre & -> & <-). rewrite ok_calls_fst.
    split; [by apply prefix_app_r|]. by split.
  - intros (-> & _ & pre & -> & <-). rewrite ok_calls_fst.
    split; [by apply prefix_app_r|]. split; [done|].
    intros ? ? ? [= _ <- _]. split; [done|].
    apply elem_of_app. right. by left.
  - intros (_ & pre & -> & <-). rewrite ok_calls_fst.
    split; [by apply prefix_app_r|]. by split.
  - intros ->. rewrite ok_calls_fst. by split.
  - assert (∀ pre s todo,
      pre ++ s :: todo = range (start_stage config) (end_stage config + 1) →
      pre ++ [s] `prefix_of`
        range (start_stage config) (end_stage config + 1)) as Hsnoc.
    { intros pre s todo <-. exists todo. by rewrite <- app_assoc. }
    intros Hinv. split; [|by split].
    destruct e as [| |j s].
    + destruct Hinv as (pre & s & todo & Hpre & [->| ->]);
        rewrite ok_calls_fst; [rewrite <- Hpre; by apply prefix_app_r|eauto].
    + destruct Hinv as (pre & s & todo & Hpre & [->| ->]);
        rewrite ok_calls_fst; [rewrite <- Hpre; by apply prefix_app_r|eauto].
    + destruct Hinv as (_ & pre & todo & -> & Hpre).
      rewrite fmap_app, ok_calls_fst. simpl. eauto.
Qed.

(** ** The scheduler *)

(** C2 (the code does not do this): with a provider whose range starts
    after stage 3, the events that [main] creates hold no stage-3 event
    for the provider, and the first step of the dependent record, which
    looks this event up, ends in a [KeyError]. *)
Theorem missing_provider_signal :
  identify_dependencies late_provider !! 1%nat = Some [0%nat] ∧
  get_event (init_events late_provider) 0 3 = inl KeyError ∧
  run_pipeline_step (identify_dependencies late_provider) 1
    (main_init late_provider)
  = Some (set_runner 1 (Failed KeyError) (main_init late_provider)).
Proof. by vm_compute. Qed.

(** C3: whenever a record that has providers calls its stage-3 function,
    the stage-3 event of each of its providers is set at that moment, and
    the stage-3 call of that provider is in the log, returned. *)
Theorem stage3_waits_for_providers (configs : list Config) (σ σ' : Sys)
    (i : nat) (b : bool) (providers : list nat) (j : nat)
    (Hreach : reachable configs σ)
    (Hstep : run_pipeline_step (identify_dependencies configs) i σ = Some σ')
    (Hcall : calls σ' = calls σ ++ [(i, 3, b)])
    (Hdeps : identify_dependencies configs !! i = Some providers)
    (Hj : j ∈ providers) :
  get_event (stage_events σ) j 3 = inr true ∧ (j, 3, true) ∈ calls σ.
Proof.
  destruct (step_call_inv _ _ _ _ _ _ _ Hstep Hcall) as (_ & _ & [todo Hr] & _).
  pose proof (reachable_inv _ _ Hreach) as (_ & _ & _ & Hev & Hrun & _).
  destruct (identify_dependencies_key _ _ _ Hdeps) as [config Hconfig].
  destruct (Hrun _ _ _ Hconfig Hr) as [Hset _].
  assert (get_event (stage_events σ) j 3 = inr true) as Hget.
  { eapply all_set_elem; [|done]. by apply Hset. }
  split; [done|]. by apply Hev.
Qed.

(** C5: when the stage function called by runner [i] for stage [s]
    raises, that step leaves the events as they were, and in every state
    that follows the event of [(i, s)] is not set, [s] is the last stage
    that runner [i] has called, the runner is failed with that cause, and
    the awaited gather of [main] raises. *)
Theorem stage_failure_is_final (configs : list Config) (σ σ1 : Sys)
    (i : nat) (s : Z)
    (Hreach : reachable configs σ)
    (Hstep : run_pipeline_step (identify_dependencies configs) i σ = Some σ1)
    (Hfail : calls σ1 = calls σ ++ [(i, s, false)]) :
  stage_events σ1 = stage_events σ ∧
  ∀ σ', rtc (sys_step configs) σ1 σ' →
    get_event (stage_events σ') i s ≠ inr true ∧
    stages_of i (calls σ') = stages_of i (calls σ) ++ [s] ∧
    runners σ' !! i = Some (Failed (StageFailure i s)) ∧
    main_outcome σ' = Raised.
Proof.
  destruct (step_call_inv _ _ _ _ _ _ _ Hstep Hfail)
    as (_ & _ & [todo Hr] & Hsame).
  destruct (Hsame eq_refl) as [Hevs Hrunners]. split; [done|].
  intros σ' Hsteps.
  assert (runners σ' !! i = Some (Failed (StageFailure i s)) ∧
          calls_of i (calls σ') = calls_of i (calls σ) ++ [(s, false)])
    as [Hfailed Hlog].
  { revert σ' Hsteps. apply rtc_ind_r.
    - split.
      + rewrite Hrunners. apply list_lookup_insert_eq. by eapply lookup_lt_Some.
      + rewrite Hfail, calls_of_snoc. by rewrite decide_True.
    - intros σ2 σ3 _ [k Hk] [IHr IHlog].
      destruct (decide (k = i)) as [->|Hne].
      + by rewrite (step_failed _ _ _ _ IHr) in Hk.
      + destruct (step_other _ _ _ _ i Hk) as [-> ->]; done. }
  split; [|split; [|split; [done|by eapply main_outcome_raised]]].
  - intros Hget.
    assert (reachable configs σ') as Hreach'.
    { eapply reachable_rtc; [|done]. by eapply reachable_step. }
    pose proof (reachable_inv _ _ Hreach') as (_ & Hidx & _ & Hev & _).
    pose proof (Hev _ _ Hget) as Hin.
    destruct (reachable_runner _ _ i Hreach (Hidx _ _ _ Hin))
      as (config & r & Hconfig & Hr' & Hinv).
    rewrite Hr in Hr'. injection Hr' as <-.
    destruct Hinv as (_ & pre & Hpre & Hrange).
    apply elem_of_calls_of in Hin. rewrite Hlog, Hpre in Hin.
    apply elem_of_app in Hin as [[Hin _]%elem_of_ok_calls|Hin%list_elem_of_singleton];
      [|done].
    pose proof (NoDup_range (start_stage config) (end_stage config + 1)) as Hnd.
    rewrite <- Hrange in Hnd. apply NoDup_app in Hnd as (_ & Hnd & _).
    apply (Hnd s Hin). by left.
  - unfold stages_of. by rewrite Hlog, fmap_app.
Qed.

(** C7: the stages that a runner has called are, in the order of the
    calls, the first stages of [range(start_stage, end_stage + 1)]: the
    call number [n] is the call of stage [start_stage + n]; and they are
    the whole range once the runner has completed.  A runner waits only
    when stage 3 is in its range; a runner of stages 5 to 7 never waits
    and calls 5, 6 and 7 in this order. *)
Theorem stages_called_in_order (configs : list Config) (σ : Sys) (i : nat)
    (config : Config) (r : Runner)
    (Hreach : reachable configs σ)
    (Hi : configs !! i = Some config)
    (Hr : runners σ !! i = Some r) :
  stages_of i (calls σ)
    `prefix_of` range (start_stage config) (end_stage config + 1) ∧
  (∀ (n : nat) s, stages_of i (calls σ) !! n = Some s →
     s = start_stage config + Z.of_nat n ∧ s ≤ end_stage config) ∧
  (r = Completed →
   stages_of i (calls σ) = range (start_stage config) (end_stage config + 1)) ∧
  (∀ providers s todo, r = Waiting providers s todo →
     s = 3 ∧ start_stage config ≤ 3 ≤ end_stage config) ∧
  (start_stage config = 5 → end_stage config = 7 →
   stages_of i (calls σ) `prefix_of` [5; 6; 7] ∧
   (r = Completed → stages_of i (calls σ) = [5; 6; 7]) ∧
   ∀ providers s todo, r ≠ Waiting providers s todo).
Proof.
  pose proof (reachable_inv _ _ Hreach) as (_ & _ & _ & _ & Hrun & _).
  destruct (runner_inv_stages _ _ _ _ _ _ (Hrun _ _ _ Hi Hr))
    as (Hprefix & Hdone & Hwait).
  assert (∀ providers s todo, r = Waiting providers s todo →
            s = 3 ∧ start_stage config ≤ 3 ≤ end_stage config) as Hwait'.
  { intros providers s todo Hw.
    destruct (Hwait _ _ _ Hw) as [-> Hin]. apply elem_of_range in Hin. lia. }
  split; [done|]. split; [|split; [done|split; [done|]]].
  - intros n s Hn.
    pose proof (prefix_lookup_Some _ _ _ _ Hn Hprefix) as Hs.
    unfold range in Hs. apply lookup_seqZ in Hs. lia.
  - intros H5 H7. rewrite H5, H7 in Hprefix, Hdone.
    split; [done|]. split; [done|].
    intros providers s todo Hw. destruct (Hwait' _ _ _ Hw). lia.
Qed.

(** C10: for a record whose [start_stage] exceeds its [end_stage], [main]
    creates an empty dictionary of events and nothing is ever added to it;
    the runner of the record calls no stage function, and it has either
    completed or completes with its first step, which changes neither the
    events nor the log. *)
Theorem reversed_range_completes (configs : list Config) (σ : Sys) (i : nat)
    (config : Config)
    (Hreach : reachable configs σ)
    (Hi : configs !! i = Some config)
    (Hgt : start_stage config > end_stage config) :
  init_events configs !! i = Some ∅ ∧
  stage_events σ !! i = Some ∅ ∧
  stages_of i (calls σ) = [] ∧
  (runners σ !! i = Some Completed ∨
   runners σ !! i = Some (AtLoop []) ∧
   ∃ σ', run_pipeline_step (identify_dependencies configs) i σ = Some σ' ∧
         runners σ' !! i = Some Completed ∧
         calls σ' = calls σ ∧ stage_events σ' = stage_events σ).
Proof.
  assert (range (start_stage config) (end_stage config + 1) = []) as Hrange
    by (apply range_empty; lia).
  assert (init_events configs !! i = Some ∅) as Hinit.
  { unfold init_events. rewrite list_lookup_fmap, Hi. simpl. by rewrite Hrange. }
  pose proof (reachable_inv _ _ Hreach) as (_ & _ & Hdom & _).
  split; [done|]. split; [|].
  { assert ((dom <$> stage_events σ) !! i = Some (∅ : gset Z)) as Hd.
    { by rewrite Hdom, list_lookup_fmap, Hinit. }
    rewrite list_lookup_fmap in Hd.
    destruct (stage_events σ !! i) as [d|]; [|done].
    injection Hd as Hd%dom_empty_inv_L. by rewrite Hd. }
  destruct (reachable_runner _ _ i Hreach) as (config' & r & Hi' & Hr & Hinv).
  { by eapply lookup_lt_Some. }
  rewrite Hi in Hi'. injection Hi' as <-.
  unfold stages_of, runner_inv in *. rewrite Hrange in Hinv.
  destruct r as [todo|providers s todo|s todo| |e].
  - destruct Hinv as (pre & -> & [-> ->]%app_nil). split; [done|].
    right. split; [done|]. exists (set_runner i Completed σ).
    unfold run_pipeline_step. rewrite Hr. split; [done|]. simpl.
    split; [|done]. apply list_lookup_insert_eq. by eapply lookup_lt_Some.
  - destruct Hinv as (_ & _ & pre & _ & [_ ?]%app_nil). done.
  - destruct Hinv as (_ & pre & _ & [_ ?]%app_nil). done.
  - rewrite Hinv. split; [done|]. by left.
  - destruct e as [| |j s].
    + destruct Hinv as (pre & s & todo & [_ ?]%app_nil & _). done.
    + destruct Hinv as (pre & s & todo & [_ ?]%app_nil & _). done.
    + destruct Hinv as (_ & pre & todo & _ & [_ ?]%app_nil). done.
Qed.

(** ** The step function takes the moves of [runner_move] *)

Lemma step_move deps k σ σ' :
  run_pipeline_step deps k σ = Some σ' ↔ runner_move deps k σ σ'.
Proof.
  split.
  - unfold run_pipeline_step. intros Hstep.
    destruct (runners σ !! k) as [r|] eqn:Hk; [|done]. simpl in Hstep.
    destruct r as [[|s todo]|providers s todo|s todo| |e]; try done.
    + injection Hstep as <-. by apply move_done.
    + case_bool_decide as Hs.
      * subst s. destruct (deps !! k) as [providers|] eqn:Hdeps.
        -- destruct (provider_events (stage_events σ) providers) eqn:Hprov;
             injection Hstep as <-.
           ++ by eapply move_wait_error.
           ++ by eapply move_wait.
        -- injection Hstep as <-. apply move_enter; [done|by right].
      * injection Hstep as <-. apply move_enter; [done|by left].
    + destruct (all_set (stage_events σ) providers) eqn:Hset; [|done].
      injection Hstep as <-. by eapply move_resume.
    + unfold run_stage in Hstep.
      destruct (STAGE_FUNCTIONS s) as [fn|] eqn:Hfn.
      * destruct (stage_returns k s) eqn:Hret.
        -- destruct (set_event (stage_events σ) k s) eqn:Hevs;
             injection Hstep as <-.
           ++ by eapply move_returned_error.
           ++ by eapply move_returned.
        -- injection Hstep as <-. by eapply move_raised.
      * injection Hstep as <-. by eapply move_no_function.
  - unfold run_pipeline_step.
    intros [Hk|s todo Hk Hfree|todo providers flags Hk Hdeps Hprov
           |todo providers e Hk Hdeps Hprov|providers s todo Hk Hset
           |s todo Hk Hfn|s todo evs' Hk [fn Hfn] Hret Hevs
           |s todo e Hk [fn Hfn] Hret Hevs|s todo Hk [fn Hfn] Hret];
      rewrite Hk; simpl.
    + done.
    + case_bool_decide as Hs; [|done]. destruct Hfree as [?| ->]; done.
    + rewrite ?bool_decide_eq_true_2 by done. by rewrite Hdeps, Hprov.
    + rewrite ?bool_decide_eq_true_2 by done. by rewrite Hdeps, Hprov.
    + by rewrite Hset.
    + unfold run_stage. by rewrite Hfn.
    + unfold run_stage. by rewrite Hfn, Hret, Hevs.
    + unfold run_stage. by rewrite Hfn, Hret, Hevs.
    + unfold run_stage. by rewrite Hfn, Hret.
Qed.

(** Induction over the reachable states, move by move. *)
Lemma reachable_moves_ind configs (P : Sys → Prop) :
  P (main_init configs) →
  (∀ σ k σ', reachable configs σ → P σ →
     runner_move (identify_dependencies configs) k σ σ' → P σ') →
  ∀ σ, reachable configs σ → P σ.
Proof.
  intros Hinit Hmove. unfold reachable. apply rtc_ind_r; [done|].
  intros σ σ' Hreach [k Hstep] HP. apply step_move in Hstep. eauto.
Qed.

(** ** Which events exist *)

Lemma get_event_inr evs i s :
  (∃ flag, get_event evs i s = inr flag) ↔
  ∃ D : gset Z, (dom <$> evs) !! i = Some D ∧ s ∈ D.
Proof.
  unfold get_event. rewrite list_lookup_fmap.
  destruct (evs !! i) as [d|]; simpl.
  - destruct (d !! s) as [flag|] eqn:Hs.
    + split; [|by eauto]. intros _. exists (dom d). split; [done|].
      by eapply elem_of_dom_2.
    + split; [by intros [? ?]|]. intros (D & [= <-] & Hin).
      apply elem_of_dom in Hin as [? ?]. congruence.
  - split; [by intros [? ?]|]. by intros (D & ? & _).
Qed.

Lemma get_event_IndexError evs i s :
  get_event evs i s = inl IndexError ↔ (length evs ≤ i)%nat.
Proof.
  unfold get_event. destruct (evs !! i) as [d|] eqn:Hi.
  - apply lookup_lt_Some in Hi. destruct (d !! s); split; (done || lia).
  - by apply lookup_ge_None in Hi.
Qed.

Lemma init_events_dom configs i :
  (dom <$> init_events configs) !! i =
  (λ c, list_to_set (range (start_stage c) (end_stage c + 1)) : gset Z)
    <$> configs !! i.
Proof.
  unfold init_events. rewrite !list_lookup_fmap.
  destruct (configs !! i) as [c|]; [|done]. simpl. f_equal.
  rewrite dom_list_to_map_L. f_equal.
  rewrite <- list_fmap_compose. apply list_fmap_id.
Qed.

Lemma events_length configs σ :
  sys_inv configs σ → length (stage_events σ) = length configs.
Proof.
  intros (_ & _ & Hdom & _). apply (f_equal length) in Hdom.
  unfold init_events in Hdom. by rewrite !length_fmap in Hdom.
Qed.

Lemma event_exists configs σ i c s :
  sys_inv configs σ → configs !! i = Some c →
  (∃ flag, get_event (stage_events σ) i s = inr flag) ↔
  start_stage c ≤ s ≤ end_stage c.
Proof.
  intros (_ & _ & Hdom & _) Hi.
  rewrite get_event_inr, Hdom, init_events_dom, Hi. simpl. split.
  - intros (D & [= <-] & Hin). apply elem_of_list_to_set, elem_of_range in Hin.
    lia.
  - intros Hs. eexists. split; [done|].
    apply elem_of_list_to_set, elem_of_range. lia.
Qed.

Lemma set_event_inl evs k s e :
  set_event evs k s = inl e → get_event evs k s = inl e.
Proof.
  unfold set_event, get_event.
  destruct (evs !! k) as [d|]; [|by intros [= <-]].
  destruct (d !! s); [done|by intros [= <-]].
Qed.

Lemma set_event_exists evs k s evs' i s' :
  set_event evs k s = inr evs' →
  (∃ flag, get_event evs' i s' = inr flag) ↔
  (∃ flag, get_event evs i s' = inr flag).
Proof.
  intros Hset. rewrite !get_event_inr. by rewrite (set_event_dom _ _ _ _ Hset).
Qed.

Lemma provider_events_inl evs l e :
  provider_events evs l = inl e → ∃ j, j ∈ l ∧ get_event evs j 3 = inl e.
Proof.
  induction l as [|k l IH]; simpl; [done|].
  destruct (get_event evs k 3) as [e'|flag] eqn:Hget.
  - intros [= <-]. exists k. split; [by left|done].
  - destruct (provider_events evs l); [|done]. intros [= <-].
    destruct IH as (j & Hj & Hget'); [done|]. exists j. split; [by right|done].
Qed.

Lemma provider_events_inr evs l flags :
  provider_events evs l = inr flags →
  ∀ j, j ∈ l → ∃ flag, get_event evs j 3 = inr flag.
Proof.
  revert flags. induction l as [|k l IH]; intros flags; simpl.
  - intros _ j Hj. by apply elem_of_nil in Hj.
  - destruct (get_event evs k 3) as [e'|flag] eqn:Hget; [done|].
    destruct (provider_events evs l) as [|flags']; [done|].
    intros _ j [->|Hj]%elem_of_cons; eauto.
Qed.

Lemma all_set_false evs l :
  all_set evs l = false →
  ∃ j, j ∈ l ∧ get_event evs j 3 ≠ inr true.
Proof.
  unfold all_set. induction l as [|k l IH]; simpl; [done|].
  intros [Hk|Hl]%andb_false_iff.
  - exists k. split; [by left|]. intros Hget. by rewrite Hget in Hk.
  - destruct (IH Hl) as (j & Hj & Hget). exists j. split; [by right|done].
Qed.

(** ** The providers of a record *)

Lemma dependency_member configs i providers j :
  identify_dependencies configs !! i = Some providers → j ∈ providers →
  ∃ r p, configs !! i = Some r ∧ configs !! j = Some p ∧
         character_ref_dir p = character_ref_dir r ∧
         pipeline_type p = "booru" ∧ n_add_to_ref_per_character p > 0 ∧
         identify_dependencies configs !! j = None.
Proof.
  rewrite identify_dependencies_lookup.
  destruct (configs !! i) as [r|] eqn:Hi; [|done]. simpl.
  intros (-> & _ & _)%stored_deps_Some
         (p & Hp & Href & Hty & Hn)%elem_of_dependent_configs.
  exists r, p. repeat split; try done.
  rewrite identify_dependencies_lookup, Hp. simpl.
  destruct (stored_deps configs p) as [deps|] eqn:Hst; [|done].
  apply stored_deps_Some in Hst as (_ & _ & Hexempt). by destruct Hexempt.
Qed.

(** ** [signals_inv] holds in every reachable state *)

Lemma lookup_insert_runner (l : list Runner) k r' i r :
  <[k := r']> l !! i = Some r → i = k ∧ r = r' ∨ i ≠ k ∧ l !! i = Some r.
Proof.
  intros [(-> & -> & _)|[? ?]]%list_lookup_insert_Some; [by left|right].
  split; [congruence|done].
Qed.

Lemma signals_inv_init configs : signals_inv (main_init configs).
Proof.
  split; [|split; [|split]]; simpl.
  - intros i s b Hin. by apply elem_of_nil in Hin.
  - intros i s Hin. by apply elem_of_nil in Hin.
  - intros i e. rewrite list_lookup_fmap. by destruct (configs !! i).
  - intros i providers s todo. rewrite list_lookup_fmap.
    by destruct (configs !! i).
Qed.

Lemma signals_inv_set_runner σ k r' :
  signals_inv σ →
  (∀ e, r' = Failed e → e ≠ IndexError) →
  (∀ providers s todo, r' = Waiting providers s todo →
     ∀ j, j ∈ providers → ∃ flag, get_event (stage_events σ) j 3 = inr flag) →
  signals_inv (set_runner k r' σ).
Proof.
  intros (Hfn & Hset & Hidx & Hwait) Hfail Hnew.
  split; [done|]. split; [done|]. split; simpl.
  - intros i e [[_ <-]|[_ Hi]]%lookup_insert_runner; eauto.
  - intros i providers s todo [[_ <-]|[_ Hi]]%lookup_insert_runner; eauto.
Qed.

(** The stage that a runner is about to call has its event. *)
Lemma dispatching_event configs σ k s todo :
  sys_inv configs σ → runners σ !! k = Some (Dispatching s todo) →
  ∃ flag, get_event (stage_events σ) k s = inr flag.
Proof.
  intros Hinv Hk. pose proof Hinv as (Hlen & _ & _ & _ & Hrun & _).
  destruct (lookup_lt_is_Some_2 configs k) as [c Hc].
  { rewrite <- Hlen. by eapply lookup_lt_Some. }
  destruct (Hrun _ _ _ Hc Hk) as (_ & pre & _ & Hrange).
  apply (event_exists _ _ _ _ _ Hinv Hc).
  assert (s ∈ range (start_stage c) (end_stage c + 1)) as Hs.
  { rewrite <- Hrange. apply elem_of_app. right. by left. }
  apply elem_of_range in Hs. lia.
Qed.

Lemma signals_inv_move configs σ k σ' :
  sys_inv configs σ → signals_inv σ →
  runner_move (identify_dependencies configs) k σ σ' →
  signals_inv σ'.
Proof.
  intros Hinv Hsig Hmove.
  destruct Hmove as [Hk|s todo Hk Hfree|todo providers flags Hk Hdeps Hprov
                    |todo providers e Hk Hdeps Hprov|providers s todo Hk Hall
                    |s todo Hk Hfn|s todo evs' Hk Hfn Hret Hevs
                    |s todo e Hk Hfn Hret Hevs|s todo Hk Hfn Hret].
  - by apply signals_inv_set_runner.
  - by apply signals_inv_set_runner.
  - apply signals_inv_set_runner; [done..|].
    intros ? ? ? [= <- _ _]. by eapply provider_events_inr.
  - apply signals_inv_set_runner; [done| |done].
    intros ? [= <-] ->. apply provider_events_inl in Hprov as (j & Hj & Hget).
    apply get_event_IndexError in Hget.
    destruct (dependency_member _ _ _ _ Hdeps Hj) as (_ & p & _ & Hp & _).
    apply lookup_lt_Some in Hp. rewrite (events_length _ _ Hinv) in Hget. lia.
  - by apply signals_inv_set_runner.
  - apply signals_inv_set_runner; [done| |done]. by intros ? [= <-].
  - destruct Hsig as (Hcalls & Hset & Hidx & Hwait).
    split; [|split; [|split]]; simpl.
    + intros i s' b [Hin|[= _ -> _]%list_elem_of_singleton]%elem_of_app; eauto.
    + intros i s' [Hin|[= -> ->]%list_elem_of_singleton]%elem_of_app.
      * eapply set_event_mono; eauto.
      * rewrite (get_event_set_event _ _ _ _ _ _ Hevs). by rewrite decide_True.
    + intros i e [[_ ?]|[_ Hi]]%lookup_insert_runner; [done|eauto].
    + intros i providers s' todo' [[_ ?]|[_ Hi]]%lookup_insert_runner j Hj;
        [done|].
      apply (set_event_exists _ _ _ _ _ _ Hevs). eauto.
  - apply set_event_inl in Hevs.
    destruct (dispatching_event _ _ _ _ _ Hinv Hk) as [flag Hflag]. congruence.
  - destruct Hsig as (Hcalls & Hset & Hidx & Hwait).
    split; [|split; [|split]]; simpl.
    + intros i s' b [Hin|[= _ -> _]%list_elem_of_singleton]%elem_of_app; eauto.
    + intros i s' [Hin|[=]%list_elem_of_singleton]%elem_of_app. eauto.
    + intros i e [[_ [= ->]]|[_ Hi]]%lookup_insert_runner; [done|eauto].
    + intros i providers s' todo' [[_ ?]|[_ Hi]]%lookup_insert_runner; [done|].
      eauto.
Qed.

Lemma reachable_signals configs σ : reachable configs σ → signals_inv σ.
Proof.
  apply reachable_moves_ind; [apply signals_inv_init|].
  intros σ1 k σ2 Hreach Hsig Hmove.
  eapply signals_inv_move; [by apply reachable_inv|done..].
Qed.

(** ** Signals, failures and blocking *)

Lemma STAGE_FUNCTIONS_is_Some s : is_Some (STAGE_FUNCTIONS s) ↔ 1 ≤ s ≤ 7.
Proof.
  unfold STAGE_FUNCTIONS.
  repeat case_bool_decide;
    (split; [intros _; lia|intros _; by eexists])
    || (split; [by intros [? ?]|lia]).
Qed.

Lemma get_event_inl evs i s e :
  get_event evs i s = inl e → e = IndexError ∨ e = KeyError.
Proof.
  unfold get_event. destruct (evs !! i) as [d|]; [|intros [= <-]; by left].
  destruct (d !! s); [done|]. intros [= <-]. by right.
Qed.

Lemma get_event_cases configs σ i c s :
  sys_inv configs σ → configs !! i = Some c →
  (start_stage c ≤ s ≤ end_stage c →
   ∃ flag, get_event (stage_events σ) i s = inr flag) ∧
  (¬ start_stage c ≤ s ≤ end_stage c →
   get_event (stage_events σ) i s = inl KeyError).
Proof.
  intros Hinv Hi. split; [by apply (event_exists _ _ _ _ _ Hinv Hi)|].
  intros Hout.
  destruct (get_event (stage_events σ) i s) as [e|flag] eqn:Hget.
  - destruct (get_event_inl _ _ _ _ Hget) as [->| ->]; [|done].
    apply get_event_IndexError in Hget.
    rewrite (events_length _ _ Hinv) in Hget.
    apply lookup_lt_Some in Hi. lia.
  - destruct Hout. apply (event_exists _ _ _ _ _ Hinv Hi). eauto.
Qed.

(** X1: in every reachable state the event of record [i] and stage [s]
    exists exactly when [s] lies in the range of the record; a lookup
    outside the range is a [KeyError].  No event is created or removed
    after [main] has built [stage_events]. *)
Theorem signals_exist_for_own_range (configs : list Config) (σ : Sys)
    (i : nat) (c : Config) (s : Z)
    (Hreach : reachable configs σ)
    (Hi : configs !! i = Some c) :
  (start_stage c ≤ s ≤ end_stage c →
   ∃ flag, get_event (stage_events σ) i s = inr flag) ∧
  (¬ start_stage c ≤ s ≤ end_stage c →
   get_event (stage_events σ) i s = inl KeyError).
Proof. apply (get_event_cases configs); [by apply reachable_inv|done]. Qed.

(** X2: in every reachable state the event of [(i, s)] is set exactly
    when the stage function of stage [s] has been called for record [i]
    and has returned. *)
Theorem signal_done_iff_returned (configs : list Config) (σ : Sys)
    (i : nat) (s : Z)
    (Hreach : reachable configs σ) :
  get_event (stage_events σ) i s = inr true ↔ (i, s, true) ∈ calls σ.
Proof.
  split.
  - pose proof (reachable_inv _ _ Hreach) as (_ & _ & _ & Hev & _). apply Hev.
  - pose proof (reachable_signals _ _ Hreach) as (_ & Hset & _). apply Hset.
Qed.

Lemma move_event_mono deps k σ σ' i s :
  runner_move deps k σ σ' →
  get_event (stage_events σ) i s = inr true →
  get_event (stage_events σ') i s = inr true.
Proof.
  intros [ | | | | | |s0 todo evs' Hk Hfn Hret Hevs| | ]; try done.
  simpl. by apply (set_event_mono _ _ _ _ _ _ Hevs).
Qed.

(** X3: an event that is set stays set, whatever the runners do next;
    nothing in the scheduler clears an event. *)
Theorem signal_stays_done (configs : list Config) (σ σ' : Sys)
    (i : nat) (s : Z)
    (Hsteps : rtc (sys_step configs) σ σ')
    (Hset : get_event (stage_events σ) i s = inr true) :
  get_event (stage_events σ') i s = inr true.
Proof.
  induction Hsteps as [|σ1 σ2 σ3 [k Hstep] _ IH]; [done|].
  apply IH. apply step_move in Hstep. by eapply move_event_mono.
Qed.

(** X4: stage functions are called for the stages 1 to 7 only, also for
    a record whose range is wider. *)
Theorem calls_within_stage_functions (configs : list Config) (σ : Sys)
    (i : nat) (s : Z) (b : bool)
    (Hreach : reachable configs σ)
    (Hcall : (i, s, b) ∈ calls σ) :
  1 ≤ s ≤ 7.
Proof.
  pose proof (reachable_signals _ _ Hreach) as (Hfn & _).
  apply STAGE_FUNCTIONS_is_Some. by eapply Hfn.
Qed.

(** Why a move leaves its runner failed. *)
Lemma move_failure_cause configs σ k σ' e :
  sys_inv configs σ →
  runner_move (identify_dependencies configs) k σ σ' →
  runners σ' !! k = Some (Failed e) →
  (∃ s todo, runners σ !! k = Some (Dispatching s todo) ∧ 1 ≤ s ≤ 7 ∧
     stage_returns k s = false ∧ e = StageFailure k s) ∨
  (∃ s todo, runners σ !! k = Some (Dispatching s todo) ∧ ¬ 1 ≤ s ≤ 7 ∧
     e = KeyError) ∨
  (∃ todo providers j p,
     runners σ !! k = Some (AtLoop (3 :: todo)) ∧
     identify_dependencies configs !! k = Some providers ∧ j ∈ providers ∧
     configs !! j = Some p ∧ ¬ start_stage p ≤ 3 ≤ end_stage p ∧
     e = KeyError).
Proof.
  intros Hinv Hmove Hfailed.
  assert (∀ r r', runners σ !! k = Some r →
            <[k := r']> (runners σ) !! k = Some (Failed e) →
            r' = Failed e) as Hnew.
  { intros r r' Hk. rewrite list_lookup_insert_eq by by eapply lookup_lt_Some.
    congruence. }
  destruct Hmove as [Hk|s todo Hk Hfree|todo providers flags Hk Hdeps Hprov
                    |todo providers e' Hk Hdeps Hprov|providers s todo Hk Hall
                    |s todo Hk Hfn|s todo evs' Hk Hfn Hret Hevs
                    |s todo e' Hk Hfn Hret Hevs|s todo Hk Hfn Hret];
    simpl in Hfailed; pose proof (Hnew _ _ Hk Hfailed) as Heq; try done.
  - injection Heq as ->. right. right.
    apply provider_events_inl in Hprov as (j & Hj & Hget).
    destruct (dependency_member _ _ _ _ Hdeps Hj) as (_ & p & _ & Hp & _).
    exists todo, providers, j, p. repeat split; try done.
    + intros Hin. apply (get_event_cases _ _ _ _ 3 Hinv Hp) in Hin as [? ?].
      congruence.
    + destruct (get_event_inl _ _ _ _ Hget) as [->| ->]; [|done].
      apply get_event_IndexError in Hget.
      rewrite (events_length _ _ Hinv) in Hget.
      apply lookup_lt_Some in Hp. lia.
  - injection Heq as <-. right. left. exists s, todo. repeat split; try done.
    intros Hs%STAGE_FUNCTIONS_is_Some. rewrite Hfn in Hs. by destruct Hs.
  - apply set_event_inl in Hevs.
    destruct (dispatching_event _ _ _ _ _ Hinv Hk) as [flag Hflag]. congruence.
  - injection Heq as <-. left. exists s, todo. repeat split; try done;
      by apply STAGE_FUNCTIONS_is_Some.
Qed.

(** X5: a step leaves its runner failed for one of three reasons only:
    the stage function that it called raised; the stage number has no
    stage function; or the record reached stage 3 and one of its providers
    has no stage 3 in its range, so that the event looked up is missing. *)
Theorem failure_causes (configs : list Config) (σ σ' : Sys) (k : nat)
    (e : Exn)
    (Hreach : reachable configs σ)
    (Hstep : run_pipeline_step (identify_dependencies configs) k σ = Some σ')
    (Hfailed : runners σ' !! k = Some (Failed e)) :
  (∃ s todo, runners σ !! k = Some (Dispatching s todo) ∧ 1 ≤ s ≤ 7 ∧
     stage_returns k s = false ∧ e = StageFailure k s) ∨
  (∃ s todo, runners σ !! k = Some (Dispatching s todo) ∧ ¬ 1 ≤ s ≤ 7 ∧
     e = KeyError) ∨
  (∃ todo providers j p,
     runners σ !! k = Some (AtLoop (3 :: todo)) ∧
     identify_dependencies configs !! k = Some providers ∧ j ∈ providers ∧
     configs !! j = Some p ∧ ¬ start_stage p ≤ 3 ≤ end_stage p ∧
     e = KeyError).
Proof.
  eapply move_failure_cause; [by apply reachable_inv| |done].
  by apply step_move.
Qed.

Lemma move_runner_insert deps k σ σ' :
  runner_move deps k σ σ' →
  ∃ r r', runners σ !! k = Some r ∧ runners σ' = <[k := r']> (runners σ) ∧
          (runner_weight r' < runner_weight r)%nat.
Proof.
  intros [Hk|s todo Hk Hfree|todo providers flags Hk Hdeps Hprov
         |todo providers e' Hk Hdeps Hprov|providers s todo Hk Hall
         |s todo Hk Hfn|s todo evs' Hk Hfn Hret Hevs
         |s todo e' Hk Hfn Hret Hevs|s todo Hk Hfn Hret];
    eexists _, _; (split; [exact Hk|]); (split; [reflexivity|]); simpl; lia.
Qed.

(** A runner at the head of the loop or before [run_stage] can move. *)
Lemma step_enabled deps k σ r :
  runners σ !! k = Some r →
  (∃ todo, r = AtLoop todo) ∨ (∃ s todo, r = Dispatching s todo) →
  is_Some (run_pipeline_step deps k σ).
Proof.
  unfold run_pipeline_step. intros -> [[todo ->]|(s & todo & ->)]; simpl.
  - destruct todo as [|s todo]; [by eexists|].
    repeat case_match; by eexists.
  - destruct (run_stage k s (stage_events σ) (calls σ)) as [[exn evs] log].
    by eexists.
Qed.

(** In a batch whose ranges lie within 1..7 and whose providers have
    stage 3 in their range, a runner fails in a stage function only. *)
Lemma valid_batch_failures configs σ :
  (∀ c, c ∈ configs → 1 ≤ start_stage c ∧ end_stage c ≤ 7) →
  (∀ p, p ∈ configs → pipeline_type p = "booru" →
        n_add_to_ref_per_character p > 0 →
        start_stage p ≤ 3 ≤ end_stage p) →
  reachable configs σ →
  ∀ i e, runners σ !! i = Some (Failed e) →
         ∃ s, e = StageFailure i s ∧ stage_returns i s = false.
Proof.
  intros Hstages Hprov. revert σ.
  apply (reachable_moves_ind configs
           (λ σ, ∀ i e, runners σ !! i = Some (Failed e) →
                        ∃ s, e = StageFailure i s ∧ stage_returns i s = false)).
  - intros i e. simpl. rewrite list_lookup_fmap. by destruct (configs !! i).
  - intros σ k σ' Hreach IH Hmove i e Hfailed.
    pose proof (reachable_inv _ _ Hreach) as Hinv.
    destruct (decide (i = k)) as [->|Hne].
    + destruct (move_failure_cause _ _ _ _ _ Hinv Hmove Hfailed)
        as [(s & todo & _ & _ & Hret & ->)
           |[(s & todo & Hk & Hout & _)
            |(todo & providers & j & p & _ & Hdeps & Hj & Hp & Hout & _)]].
      * eauto.
      * destruct Hinv as (Hlen & _ & _ & _ & Hrun & _).
        destruct (lookup_lt_is_Some_2 configs k) as [c Hc].
        { rewrite <- Hlen. by eapply lookup_lt_Some. }
        destruct (Hrun _ _ _ Hc Hk) as (_ & pre & _ & Hrange).
        assert (s ∈ range (start_stage c) (end_stage c + 1)) as Hs.
        { rewrite <- Hrange. apply elem_of_app. right. by left. }
        apply elem_of_range in Hs.
        destruct (Hstages c); [by eapply list_elem_of_lookup_2|]. lia.
      * destruct (dependency_member _ _ _ _ Hdeps Hj)
          as (_ & p' & _ & Hp' & _ & Hty & Hn & _).
        rewrite Hp in Hp'. injection Hp' as <-.
        destruct Hout. apply Hprov; [by eapply list_elem_of_lookup_2|done..].
    + apply step_move in Hmove.
      destruct (step_other _ _ _ _ i Hmove Hne) as [Hsame _].
      rewrite Hsame in Hfailed. eauto.
Qed.

(** X6: when every range lies within 1..7 and every booru record that
    adds to a reference directory has stage 3 in its range, the scheduler
    raises nothing of its own: a failed runner has failed in a stage
    function that raised, and that call is in the log. *)
Theorem valid_batch_fails_in_stage_function (configs : list Config)
    (σ : Sys) (i : nat) (e : Exn)
    (Hstages : ∀ c, c ∈ configs → 1 ≤ start_stage c ∧ end_stage c ≤ 7)
    (Hprov : ∀ p, p ∈ configs → pipeline_type p = "booru" →
                  n_add_to_ref_per_character p > 0 →
                  start_stage p ≤ 3 ≤ end_stage p)
    (Hreach : reachable configs σ)
    (Hfailed : runners σ !! i = Some (Failed e)) :
  ∃ s, e = StageFailure i s ∧ stage_returns i s = false ∧
       (i, s, false) ∈ calls σ.
Proof.
  destruct (valid_batch_failures _ _ Hstages Hprov Hreach _ _ Hfailed)
    as (s & -> & Hret).
  exists s. split; [done|]. split; [done|].
  destruct (reachable_runner _ _ i Hreach) as (c & r & Hc & Hr & Hinv).
  { pose proof (reachable_inv _ _ Hreach) as (Hlen & _).
    rewrite <- Hlen. by eapply lookup_lt_Some. }
  rewrite Hfailed in Hr. injection Hr as <-.
  destruct Hinv as (_ & pre & todo & Hlog & _).
  apply elem_of_calls_of. rewrite Hlog. apply elem_of_app. right. by left.
Qed.

(** The runners of a state in which no runner can move. *)
Lemma stuck_cases configs σ i r :
  reachable configs σ →
  (∀ k, run_pipeline_step (identify_dependencies configs) k σ = None) →
  runners σ !! i = Some r →
  r = Completed ∨ (∃ e, r = Failed e) ∨
  (∃ providers todo j e,
     r = Waiting providers 3 todo ∧
     identify_dependencies configs !! i = Some providers ∧ j ∈ providers ∧
     runners σ !! j = Some (Failed e) ∧
     get_event (stage_events σ) j 3 = inr false).
Proof.
  intros Hreach Hstuck Hr.
  assert (∀ k rk, runners σ !! k = Some rk →
            ¬ ((∃ todo, rk = AtLoop todo) ∨ (∃ s todo, rk = Dispatching s todo)))
    as Hnot.
  { intros k rk Hk Hcan.
    destruct (step_enabled (identify_dependencies configs) _ _ _ Hk Hcan)
      as [σ' Hstep].
    by rewrite Hstuck in Hstep. }
  pose proof (reachable_inv _ _ Hreach) as Hinv.
  pose proof Hinv as (Hlen & _ & _ & _ & Hrun & _).
  pose proof (reachable_signals _ _ Hreach) as (_ & Hset & _ & Hwait).
  destruct r as [todo|providers s todo|s todo| |e]; [| | |by left|by eauto].
  { destruct (Hnot _ _ Hr). left. by eexists. }
  2:{ destruct (Hnot _ _ Hr). right. by eexists _, _. }
  right. right.
  destruct (lookup_lt_is_Some_2 configs i) as [c Hc].
  { rewrite <- Hlen. by eapply lookup_lt_Some. }
  destruct (Hrun _ _ _ Hc Hr) as (-> & Hdeps & _).
  assert (all_set (stage_events σ) providers = false) as Hall.
  { pose proof (Hstuck i) as Hi. unfold run_pipeline_step in Hi.
    rewrite Hr in Hi. simpl in Hi.
    by destruct (all_set (stage_events σ) providers). }
  apply all_set_false in Hall as (j & Hj & Hunset).
  destruct (Hwait _ _ _ _ Hr j Hj) as [flag Hflag].
  assert (flag = false) as -> by (destruct flag; congruence).
  destruct (dependency_member _ _ _ _ Hdeps Hj)
    as (_ & p & _ & Hp & _ & _ & _ & Hnokey).
  destruct (lookup_lt_is_Some_2 (runners σ) j) as [rj Hrj].
  { rewrite Hlen. by eapply lookup_lt_Some. }
  pose proof (Hrun _ _ _ Hp Hrj) as Hinvj.
  destruct rj as [todo'|providers' s' todo'|s' todo'| |e].
  - destruct (Hnot _ _ Hrj). left. by eexists.
  - destruct Hinvj as (_ & Hkey & _). congruence.
  - destruct (Hnot _ _ Hrj). right. by eexists _, _.
  - simpl in Hinvj.
    assert (start_stage p ≤ 3 ≤ end_stage p) as H3.
    { apply (event_exists _ _ _ _ _ Hinv Hp). eauto. }
    assert ((j, 3, true) ∈ calls σ) as Hcall.
    { apply elem_of_calls_of. rewrite Hinvj. apply elem_of_ok_calls.
      split; [|done]. apply elem_of_range. lia. }
    apply Hset in Hcall. congruence.
  - exists providers, todo, j, e. by repeat split.
Qed.

(** X7: in a reachable state in which no runner can move, every runner
    has completed or failed, or it waits at stage 3 for a provider that
    has failed without setting its stage-3 event.  Nothing else blocks a
    runner; in particular the providers of a record never wait for one
    another. *)
Theorem stuck_runner_is_done_or_stalled (configs : list Config) (σ : Sys)
    (i : nat) (r : Runner)
    (Hreach : reachable configs σ)
    (Hstuck : ∀ k,
       run_pipeline_step (identify_dependencies configs) k σ = None)
    (Hr : runners σ !! i = Some r) :
  r = Completed ∨ (∃ e, r = Failed e) ∨
  (∃ providers todo j e,
     r = Waiting providers 3 todo ∧
     identify_dependencies configs !! i = Some providers ∧ j ∈ providers ∧
     runners σ !! j = Some (Failed e) ∧
     get_event (stage_events σ) j 3 = inr false).
Proof. by apply stuck_cases. Qed.

Lemma forallb_completed (l : list Runner) :
  (∀ i r, l !! i = Some r → r = Completed) → forallb is_completed l = true.
Proof.
  intros Hall. apply forallb_forall. intros r Hr.
  apply list_elem_of_In, list_elem_of_lookup in Hr as [i Hi].
  by rewrite (Hall _ _ Hi).
Qed.

Lemma existsb_failed_false (l : list Runner) :
  (∀ i e, l !! i ≠ Some (Failed e)) → existsb is_failed l = false.
Proof.
  intros Hnone. destruct (existsb is_failed l) eqn:Hex; [|done].
  apply existsb_exists in Hex as (r & Hr & Hf).
  apply list_elem_of_In, list_elem_of_lookup in Hr as [i Hi].
  destruct r; try done. by destruct (Hnone i e).
Qed.

(** X8: without a failure there is no deadlock: a reachable state in
    which no runner has failed and no runner can move is one in which
    every runner has completed, and the gather of [main] returns. *)
Theorem no_failure_no_deadlock (configs : list Config) (σ : Sys)
    (Hreach : reachable configs σ)
    (Hstuck : ∀ k,
       run_pipeline_step (identify_dependencies configs) k σ = None)
    (Hok : ∀ i e, runners σ !! i ≠ Some (Failed e)) :
  (∀ i r, runners σ !! i = Some r → r = Completed) ∧
  main_outcome σ = Returned.
Proof.
  assert (∀ i r, runners σ !! i = Some r → r = Completed) as Hall.
  { intros i r Hr.
    destruct (stuck_cases _ _ _ _ Hreach Hstuck Hr)
      as [?|[[e ->]|(? & ? & j & e & _ & _ & _ & Hj & _)]]; [done| |].
    - by destruct (Hok i e).
    - by destruct (Hok j e). }
  split; [done|]. unfold main_outcome.
  by rewrite existsb_failed_false, forallb_completed.
Qed.

(** X9: a record without providers, or without stage 3 in its range, is
    never blocked: until it has completed or failed its runner can take
    its next step, in whatever state the other runners are. *)
Theorem free_runner_can_step (configs : list Config) (σ : Sys) (i : nat)
    (c : Config) (r : Runner)
    (Hreach : reachable configs σ)
    (Hc : configs !! i = Some c)
    (Hr : runners σ !! i = Some r)
    (Hrunning : running r)
    (Hfree : identify_dependencies configs !! i = None ∨
             ¬ start_stage c ≤ 3 ≤ end_stage c) :
  is_Some (run_pipeline_step (identify_dependencies configs) i σ).
Proof.
  pose proof (reachable_inv _ _ Hreach) as (_ & _ & _ & _ & Hrun & _).
  destruct r as [todo|providers s todo|s todo| |e]; try done.
  - eapply step_enabled; [done|]. left. by eexists.
  - destruct (Hrun _ _ _ Hc Hr) as (-> & Hdeps & pre & _ & Hrange).
    destruct Hfree as [Hnone|Hout]; [congruence|]. destruct Hout.
    assert (3 ∈ range (start_stage c) (end_stage c + 1)) as H3.
    { rewrite <- Hrange. apply elem_of_app. right. by left. }
    apply elem_of_range in H3. lia.
  - eapply step_enabled; [done|]. right. by eexists _, _.
Qed.

(** X10: when a runner has completed, the stage function of every stage
    of its range has been called and has returned, every event of the
    record is set, and the range lies within 1..7. *)
Theorem completed_runner_signals (configs : list Config) (σ : Sys) (i : nat)
    (c : Config) (s : Z)
    (Hreach : reachable configs σ)
    (Hc : configs !! i = Some c)
    (Hdone : runners σ !! i = Some Completed)
    (Hs : start_stage c ≤ s ≤ end_stage c) :
  1 ≤ s ≤ 7 ∧ (i, s, true) ∈ calls σ ∧
  get_event (stage_events σ) i s = inr true.
Proof.
  pose proof (reachable_inv _ _ Hreach) as (_ & _ & _ & _ & Hrun & _).
  pose proof (reachable_signals _ _ Hreach) as (Hfn & Hset & _).
  pose proof (Hrun _ _ _ Hc Hdone) as Hlog. simpl in Hlog.
  assert ((i, s, true) ∈ calls σ) as Hcall.
  { apply elem_of_calls_of. rewrite Hlog. apply elem_of_ok_calls.
    split; [|done]. apply elem_of_range. lia. }
  split; [|by eauto]. apply STAGE_FUNCTIONS_is_Some. by eapply Hfn.
Qed.

(** ** Termination *)

Lemma weight_insert (l : list Runner) k r r' :
  l !! k = Some r →
  (sum_list (runner_weight <$> <[k := r']> l) + runner_weight r
   = sum_list (runner_weight <$> l) + runner_weight r')%nat.
Proof.
  revert k. induction l as [|x l IH]; intros [|k] Hk; simplify_eq/=; [lia|].
  specialize (IH k Hk). lia.
Qed.

Lemma move_weight deps k σ σ' :
  runner_move deps k σ σ' → (sys_weight σ' < sys_weight σ)%nat.
Proof.
  intros (r & r' & Hk & Hrun & Hlt)%move_runner_insert.
  unfold sys_weight. rewrite Hrun.
  pose proof (weight_insert _ _ _ r' Hk). lia.
Qed.

Lemma run_schedule_weight configs schedule σ σ' :
  run_schedule configs schedule σ = Some σ' →
  (length schedule + sys_weight σ' ≤ sys_weight σ)%nat.
Proof.
  revert σ. induction schedule as [|k schedule IH]; intros σ Hrun;
    simpl in Hrun.
  - injection Hrun as <-. simpl. lia.
  - destruct (run_pipeline_step _ k σ) as [σ1|] eqn:Hstep; [|done].
    simpl in Hrun. apply IH in Hrun.
    apply step_move, move_weight in Hstep. simpl. lia.
Qed.

Lemma sys_weight_init configs :
  sys_weight (main_init configs) =
  sum_list ((λ c, 3 * Z.to_nat (end_stage c + 1 - start_stage c) + 1)%nat
              <$> configs).
Proof.
  unfold sys_weight, main_init. simpl. rewrite <- list_fmap_compose.
  f_equal. apply list_fmap_ext. intros _ c _. simpl.
  unfold range. by rewrite length_seqZ.
Qed.

(** X11: a run takes at most three steps for each stage of each range
    and one more for each record: no schedule from the initial state is
    longer, so the runners cannot move forever. *)
Theorem schedule_length_bounded (configs : list Config)
    (schedule : list nat) (σ : Sys)
    (Hrun : run_schedule configs schedule (main_init configs) = Some σ) :
  (length schedule ≤
   sum_list ((λ c, 3 * Z.to_nat (end_stage c + 1 - start_stage c) + 1)%nat
               <$> configs))%nat.
Proof.
  apply run_schedule_weight in Hrun. rewrite sys_weight_init in Hrun. lia.
Qed.

(** X12: when every range lies within 1..7, every booru record that adds
    to a reference directory has stage 3 in its range, and every stage
    function returns, a reachable state in which no runner can move is one
    in which every runner has completed. *)
Theorem valid_batch_completes (configs : list Config) (σ : Sys)
    (Hstages : ∀ c, c ∈ configs → 1 ≤ start_stage c ∧ end_stage c ≤ 7)
    (Hprov : ∀ p, p ∈ configs → pipeline_type p = "booru" →
                  n_add_to_ref_per_character p > 0 →
                  start_stage p ≤ 3 ≤ end_stage p)
    (Hret : ∀ i s, stage_returns i s = true)
    (Hreach : reachable configs σ)
    (Hstuck : ∀ k,
       run_pipeline_step (identify_dependencies configs) k σ = None) :
  (∀ i r, runners σ !! i = Some r → r = Completed) ∧
  main_outcome σ = Returned.
Proof.
  assert (∀ i e, runners σ !! i ≠ Some (Failed e)) as Hok.
  { intros i e Hfailed.
    destruct (valid_batch_failures _ _ Hstages Hprov Hreach _ _ Hfailed)
      as (s & _ & Hs).
    rewrite Hret in Hs. done. }
  assert (∀ i r, runners σ !! i = Some r → r = Completed) as Hall.
  { intros i r Hr.
    destruct (stuck_cases _ _ _ _ Hreach Hstuck Hr)
      as [?|[[e ->]|(? & ? & j & e & _ & _ & _ & Hj & _)]]; [done| |].
    - by destruct (Hok i e).
    - by destruct (Hok j e). }
  split; [done|]. unfold main_outcome.
  by rewrite existsb_failed_false, forallb_completed.
Qed.

(** ** A failure and the records that do not depend on it *)

(** Either no runner can move, or some runner can. *)
Lemma stuck_or_step deps σ :
  (∀ k, run_pipeline_step deps k σ = None) ∨
  (∃ k σ', run_pipeline_step deps k σ = Some σ').
Proof.
  assert (∀ n, (∀ k, (k < n)%nat → run_pipeline_step deps k σ = None) ∨
               (∃ k σ', run_pipeline_step deps k σ = Some σ')) as Hbelow.
  { induction n as [|n [Hnone|Hsome]]; [left; lia| |by right].
    destruct (run_pipeline_step deps n σ) as [σ'|] eqn:Hn; [right; eauto|].
    left. intros k Hk. destruct (decide (k = n)) as [->|Hne]; [done|].
    apply Hnone. lia. }
  destruct (Hbelow (length (runners σ))) as [Hnone|Hsome]; [|by right].
  left. intros k. destruct (decide (k < length (runners σ))%nat) as [Hk|Hk].
  - by apply Hnone.
  - unfold run_pipeline_step. rewrite lookup_ge_None_2; [done|lia].
Qed.

(** From every state some schedule leads to a state in which no runner
    can move. *)
Lemma run_to_end configs σ :
  ∃ schedule σ',
    run_schedule configs schedule σ = Some σ' ∧
    ∀ k, run_pipeline_step (identify_dependencies configs) k σ' = None.
Proof.
  remember (sys_weight σ) as n eqn:Hn. revert σ Hn.
  induction n as [n IH] using lt_wf_ind. intros σ ->.
  destruct (stuck_or_step (identify_dependencies configs) σ)
    as [Hstuck|(k & σ1 & Hstep)].
  - by exists [], σ.
  - pose proof Hstep as Hlt%step_move%move_weight.
    destruct (IH _ Hlt σ1 eq_refl) as (schedule & σ' & Hrun & Hstuck).
    exists (k :: schedule), σ'. split; [|done]. simpl. by rewrite Hstep.
Qed.

(** C4: the stage function that record [i] has called raises, and [j] is
    another record that does not depend on [i]: [i] is none of the
    providers that the resolver gave to [j] (providers have no providers,
    so that there is no longer chain to [i] either).  Then
    - the failing step leaves the runner of [j], the calls it has made and
      every event as they were;
    - in no later state is [j] held up by [i]: as long as it has neither
      completed nor failed, its runner can take its next step, or it waits
      at stage 3 for the event, not yet set, of a provider other than [i];
    - a later step of [j] that leaves it failed has a cause of its own: the
      stage function that [j] called raised, the stage has no stage
      function, or a provider of [j], which is not [i], has no stage 3;
    - the run goes on to a state in which no runner can move, in at most
      as many steps as the weight of the state allows;
    - in every such state, when the records that have failed ([i] is one of
      them) are none of [j] and its providers, the runner of [j] has
      completed and has called the stage function of every stage of its
      range, in order: it has not been stopped on the way. *)
Theorem unrelated_sibling_completes (configs : list Config) (σ σ1 : Sys)
    (i : nat) (s : Z) (j : nat) (c : Config)
    (Hreach : reachable configs σ)
    (Hstep : run_pipeline_step (identify_dependencies configs) i σ = Some σ1)
    (Hfail : calls σ1 = calls σ ++ [(i, s, false)])
    (Hj : configs !! j = Some c)
    (Hne : j ≠ i)
    (Hunrel : ∀ providers,
       identify_dependencies configs !! j = Some providers → i ∉ providers) :
  (runners σ1 !! j = runners σ !! j ∧
   calls_of j (calls σ1) = calls_of j (calls σ) ∧
   stage_events σ1 = stage_events σ) ∧
  (∀ σ' r, rtc (sys_step configs) σ1 σ' →
     runners σ' !! j = Some r → running r →
     is_Some (run_pipeline_step (identify_dependencies configs) j σ') ∨
     ∃ providers todo p,
       r = Waiting providers 3 todo ∧
       identify_dependencies configs !! j = Some providers ∧
       p ∈ providers ∧ p ≠ i ∧
       get_event (stage_events σ') p 3 = inr false) ∧
  (∀ σ' σ'' e, rtc (sys_step configs) σ1 σ' →
     run_pipeline_step (identify_dependencies configs) j σ' = Some σ'' →
     runners σ'' !! j = Some (Failed e) →
     (∃ s' todo, runners σ' !! j = Some (Dispatching s' todo) ∧
        (stage_returns j s' = false ∨ ¬ 1 ≤ s' ≤ 7)) ∨
     (∃ providers p cp,
        identify_dependencies configs !! j = Some providers ∧
        p ∈ providers ∧ p ≠ i ∧ configs !! p = Some cp ∧
        ¬ start_stage cp ≤ 3 ≤ end_stage cp)) ∧
  (∀ σ', rtc (sys_step configs) σ1 σ' →
     (∀ schedule σ'', run_schedule configs schedule σ' = Some σ'' →
                      (length schedule ≤ sys_weight σ')%nat) ∧
     ∃ σ'', rtc (sys_step configs) σ' σ'' ∧
            ∀ k, run_pipeline_step (identify_dependencies configs) k σ''
                 = None) ∧
  (∀ σ', rtc (sys_step configs) σ1 σ' →
     (∀ k, run_pipeline_step (identify_dependencies configs) k σ' = None) →
     (∀ k e, runners σ' !! k = Some (Failed e) →
        k ≠ j ∧
        ∀ providers,
          identify_dependencies configs !! j = Some providers →
          k ∉ providers) →
     runners σ' !! j = Some Completed ∧
     stages_of j (calls σ') = range (start_stage c) (end_stage c + 1)).
Proof.
  assert (∀ σ', rtc (sys_step configs) σ1 σ' → reachable configs σ')
    as Hlater.
  { intros σ' Hsteps. eapply reachable_rtc; [|done].
    by eapply reachable_step. }
  split; [|split; [|split; [|split]]].
  - destruct (step_other _ _ _ _ j Hstep Hne) as [Hr Hlog].
    destruct (step_call_inv _ _ _ _ _ _ _ Hstep Hfail)
      as (_ & _ & _ & Hsame).
    destruct (Hsame eq_refl) as [Hevs _]. done.
  - intros σ' r Hsteps Hr Hrunning.
    pose proof (reachable_inv _ _ (Hlater _ Hsteps))
      as (_ & _ & _ & _ & Hrun & _).
    pose proof (reachable_signals _ _ (Hlater _ Hsteps))
      as (_ & _ & _ & Hwait).
    destruct r as [todo|providers s' todo|s' todo| |e]; try done.
    + left. eapply step_enabled; [done|]. left. by eexists.
    + destruct (Hrun _ _ _ Hj Hr) as (-> & Hdeps & _).
      destruct (all_set (stage_events σ') providers) eqn:Hall.
      * left. unfold run_pipeline_step. rewrite Hr. simpl. rewrite Hall.
        by eexists.
      * right. apply all_set_false in Hall as (p & Hp & Hunset).
        destruct (Hwait _ _ _ _ Hr p Hp) as [flag Hflag].
        exists providers, todo, p. repeat split; try done.
        -- intros ->. by apply (Hunrel _ Hdeps).
        -- destruct flag; [done|]. exact Hflag.
    + left. eapply step_enabled; [done|]. right. by eexists _, _.
  - intros σ' σ'' e Hsteps Hmove%step_move Hfailed.
    destruct (move_failure_cause _ _ _ _ _
                (reachable_inv _ _ (Hlater _ Hsteps)) Hmove Hfailed)
      as [(s' & todo & Hr & _ & Hret & _)
         |[(s' & todo & Hr & Hout & _)
          |(todo & providers & p & cp & _ & Hdeps & Hp & Hcp & Hout & _)]].
    + left. exists s', todo. split; [done|by left].
    + left. exists s', todo. split; [done|by right].
    + right. exists providers, p, cp. repeat split; try done.
      intros ->. by apply (Hunrel _ Hdeps).
  - intros σ' Hsteps. split.
    + intros schedule σ'' Hrun. apply run_schedule_weight in Hrun. lia.
    + destruct (run_to_end configs σ') as (schedule & σ'' & Hrun & Hstuck).
      exists σ''. split; [by eapply run_schedule_rtc|done].
  - intros σ' Hsteps Hstuck Hfailed.
    pose proof (reachable_inv _ _ (Hlater _ Hsteps))
      as (Hlen & _ & _ & _ & Hrun & _).
    destruct (lookup_lt_is_Some_2 (runners σ') j) as [r Hr].
    { rewrite Hlen. by eapply lookup_lt_Some. }
    assert (r = Completed) as ->.
    { destruct (stuck_cases _ _ _ _ (Hlater _ Hsteps) Hstuck Hr)
        as [?|[[e ->]|(providers & todo & p & e & _ & Hdeps & Hp & Hpf & _)]];
        [done| |].
      - by destruct (Hfailed _ _ Hr).
      - destruct (Hfailed _ _ Hpf) as [_ Hnot]. by destruct (Hnot _ Hdeps). }
    split; [done|].
    by apply (runner_inv_stages _ _ _ _ _ _ (Hrun _ _ _ Hj Hr)).
Qed.

(** ** More on [identify_dependencies] *)

(** X13: the providers of a record are records of the list other than
    the record itself, and none of them has providers of its own: the
    dependencies are one level deep and cannot form a cycle. *)
Theorem providers_have_no_providers (configs : list Config) (i j : nat)
    (providers : list nat)
    (Hdeps : identify_dependencies configs !! i = Some providers)
    (Hj : j ∈ providers) :
  (j < length configs)%nat ∧ j ≠ i ∧
  identify_dependencies configs !! j = None.
Proof.
  destruct (dependency_member _ _ _ _ Hdeps Hj)
    as (r & p & Hr & Hp & _ & _ & _ & Hnone).
  split; [by eapply lookup_lt_Some|]. split; [|done]. congruence.
Qed.

Lemma dependent_configs_ref configs r r' :
  character_ref_dir r = character_ref_dir r' →
  dependent_configs configs r = dependent_configs configs r'.
Proof.
  intros Href. unfold dependent_configs. apply list_omap_ext.
  apply Forall2_same_length_lookup. split; [done|].
  intros k [j d] [j' d'] Hk Hk'. rewrite Hk in Hk'. injection Hk' as <- <-.
  unfold select_provider. by rewrite Href.
Qed.

(** X14: records that share their [character_ref_dir] and do not
    themselves add to it wait for the same providers: the resolver gives
    them the same list, or no entry to either. *)
Theorem same_ref_dir_same_providers (configs : list Config) (i k : nat)
    (r r' : Config)
    (Hi : configs !! i = Some r)
    (Hk : configs !! k = Some r')
    (Href : character_ref_dir r = character_ref_dir r')
    (Hr : ¬ (pipeline_type r = "booru" ∧ n_add_to_ref_per_character r > 0))
    (Hr' : ¬ (pipeline_type r' = "booru" ∧
              n_add_to_ref_per_character r' > 0)) :
  identify_dependencies configs !! i = identify_dependencies configs !! k.
Proof.
  rewrite !identify_dependencies_lookup, Hi, Hk. simpl.
  destruct (stored_deps configs r) as [deps|] eqn:Hst.
  - apply stored_deps_Some in Hst as (-> & Hne & _).
    symmetry. apply stored_deps_Some.
    rewrite (dependent_configs_ref configs r r' Href) in Hne |- *. done.
  - destruct (stored_deps configs r') as [deps|] eqn:Hst'; [|done].
    apply stored_deps_Some in Hst' as (-> & Hne & _).
    rewrite <- (dependent_configs_ref configs r r' Href) in Hne |- *.
    rewrite <- Hst. by apply stored_deps_Some.
Qed.

(** X15: when no record of the list is a booru record that adds to a
    reference directory, and so for the empty list, the resolver returns
    the empty mapping. *)
Theorem no_contributor_no_dependencies (configs : list Config)
    (Hnone : ∀ c, c ∈ configs →
       ¬ (pipeline_type c = "booru" ∧ n_add_to_ref_per_character c > 0)) :
  identify_dependencies configs = ∅.
Proof.
  apply map_eq. intros i. rewrite lookup_empty.
  destruct (identify_dependencies configs !! i) as [providers|] eqn:Hdeps;
    [|done].
  assert (providers ≠ []) as Hne.
  { rewrite identify_dependencies_lookup in Hdeps.
    destruct (configs !! i) as [r|]; [|done]. simpl in Hdeps.
    by apply stored_deps_Some in Hdeps as (_ & ? & _). }
  destruct providers as [|j providers]; [done|].
  destruct (dependency_member _ _ _ j Hdeps) as (_ & p & _ & Hp & _ & Hty & Hn & _);
    [by left|].
  destruct (Hnone p); [by eapply list_elem_of_lookup_2|done].
Qed.

(** ** More on the [__main__] block *)

Lemma process_configs_Some seen l configs :
  process_configs seen l = Some configs ↔
  Forall2 (λ args config, setup_args args = Some config) l configs ∧
  NoDup (folder_key <$> l) ∧
  ∀ args, args ∈ l → folder_key args ∉ seen.
Proof.
  revert seen configs. induction l as [|a l IH]; intros seen configs.
  - simpl. split.
    + intros [= <-]. split; [constructor|]. split; [constructor|].
      intros args Hin. by apply elem_of_nil in Hin.
    + intros (Hall & _). by apply Forall2_nil_inv_l in Hall as ->.
  - cbn [process_configs]. split.
    + destruct (setup_args a) as [c|] eqn:Hsetup; [|done]. simpl.
      pose proof (setup_args_folder _ _ Hsetup) as Hkey.
      case_bool_decide as Hseen; [done|].
      destruct (process_configs ({[dst_folder c]} ∪ seen) l) as [cs|] eqn:Hrest;
        [|done].
      intros [= <-]. apply IH in Hrest as (Hall & Hnd & Hfresh).
      split; [by constructor|]. split.
      * simpl. constructor; [|done].
        intros (a' & Heq & Hin)%list_elem_of_fmap.
        apply (Hfresh a' Hin). apply elem_of_union. left.
        apply elem_of_singleton. congruence.
      * intros args [->|Hin]%elem_of_cons; [congruence|].
        intros Hin'. apply (Hfresh args Hin). apply elem_of_union. by right.
    + intros (Hall & Hnd & Hfresh).
      apply Forall2_cons_inv_l in Hall as (c & cs & Hsetup & Hall & ->).
      rewrite Hsetup. simpl.
      pose proof (setup_args_folder _ _ Hsetup) as Hkey.
      rewrite fmap_cons in Hnd. apply NoDup_cons in Hnd as [Hnew Hnd].
      rewrite bool_decide_eq_false_2.
      2:{ rewrite Hkey. apply Hfresh. by left. }
      assert (process_configs ({[dst_folder c]} ∪ seen) l = Some cs) as ->;
        [|done].
      apply IH. split; [done|]. split; [done|].
      intros args Hin [Heq%elem_of_singleton|Hin']%elem_of_union.
      * apply Hnew. rewrite <- Hkey, <- Heq. by apply list_elem_of_fmap_2.
      * apply (Hfresh args); [by right|done].
Qed.

(** X16: the loop of the [__main__] block accepts a batch exactly when
    [setup_args] succeeds on every record and the triples
    [(dst_dir, extra_path_component, image_type)] of the records are
    pairwise different; the records it hands to [main] are those that
    [setup_args] returns, in the order of the batch.  It checks nothing
    else: no bound on the stage numbers, no order between them. *)
Theorem batch_accepted_iff (l : list Args) (configs : list Config) :
  process_configs ∅ l = Some configs ↔
  Forall2 (λ args config, setup_args args = Some config) l configs ∧
  NoDup (folder_key <$> l).
Proof.
  rewrite process_configs_Some. split.
  - by intros (? & ? & _).
  - intros [? ?]. split; [done|]. split; [done|].
    intros args _. apply not_elem_of_empty.
Qed.

(** X17: every alias of [STAGE_ALIASES] given as a stage bound becomes
    the number of its stage, a number from 1 to 7, without [int] being
    asked: "tag", "caption" and "tag_and_caption" all stand for 5. *)
Theorem alias_resolves_to_stage (n : Z) (aliases : list string) (s : string)
    (Hentry : (n, aliases) ∈ STAGE_ALIASES)
    (Hs : s ∈ aliases) :
  py_int (resolve_alias (VStr s)) = Some n ∧ 1 ≤ n ≤ 7.
Proof.
  unfold STAGE_ALIASES in Hentry.
  repeat (apply elem_of_cons in Hentry as [[= -> ->]|Hentry]);
    [..|by apply elem_of_nil in Hentry];
    repeat (apply elem_of_cons in Hs as [->|Hs]);
    try (by apply elem_of_nil in Hs); by vm_compute.
Qed.

Lemma foldl_alias_none v (table : list (Z * list string)) :
  (∀ n aliases, (n, aliases) ∈ table → in_aliases v aliases = false) →
  foldl (λ stage '(stage_number, aliases),
           if in_aliases v aliases then VInt stage_number else stage)
        v table = v.
Proof.
  induction table as [|[n aliases] table IH] using rev_ind; [done|].
  intros Hno. rewrite foldl_app. simpl.
  rewrite (Hno n aliases) by (apply elem_of_app; right; by left).
  apply IH. intros n' aliases' Hin. apply (Hno n' aliases').
  apply elem_of_app. by left.
Qed.

(** X18: a stage bound that is an integer, or a string that is none of
    the aliases, is left as it is by the alias loop, so that [int] decides
    on it. *)
Theorem non_alias_bound_is_kept (v : PyVal)
    (Hno : ∀ n aliases s, (n, aliases) ∈ STAGE_ALIASES → v = VStr s →
                          s ∉ aliases) :
  resolve_alias v = v ∧
  py_int (resolve_alias v) =
  match v with VInt z => Some z | VStr s => int_of_str s end.
Proof.
  assert (resolve_alias v = v) as Hkeep.
  { unfold resolve_alias. apply foldl_alias_none. intros n aliases Hin.
    destruct v as [z|s]; [done|]. simpl.
    apply bool_decide_eq_false_2. by eapply Hno. }
  split; [done|]. rewrite Hkeep. by destruct v.
Qed.

End Scheduler.

(** ** The theorems on the example batches *)

Lemma contributor_never_dependent_witness :
  identify_dependencies scenario_A !! 0%nat = None ∧
  ∀ k, k ∉ default [] (identify_dependencies scenario_A !! k).
Proof.
  apply (contributor_never_dependent scenario_A 0 booru_r1);
    [reflexivity|reflexivity|simpl; lia].
Defined.

Lemma identify_dependencies_deterministic_witness :
  identify_dependencies scenario_A = identify_dependencies scenario_A_moved.
Proof.
  apply (identify_dependencies_deterministic scenario_A scenario_A_moved).
  reflexivity.
Defined.

Lemma duplicate_folder_rejected_witness :
  process_configs (λ _, None) ∅ same_folder = None ∧
  ∀ log, script_log (λ _, None) (λ _ _, true) same_folder log → log = [].
Proof.
  apply (duplicate_folder_rejected (λ _, None) (λ _ _, true) same_folder 0 1
           (mkArgs "screenshots" None "out" "" None 0 (VInt 1) (VInt 7))
           (mkArgs "screenshots" (Some "") "out" "" None 0 (VStr "crop") (VInt 4)));
    [lia|reflexivity|reflexivity|reflexivity].
Defined.

Lemma stage3_waits_for_providers_witness :
  ∃ σ,
    run_schedule (λ _ _, true) scenario_A [0; 0; 0; 0; 0; 0; 1; 1; 1; 1; 1; 1]%nat
      (main_init scenario_A) = Some σ ∧
    runners σ !! 1%nat = Some (Dispatching 3 [4; 5; 6; 7]) ∧
    get_event (stage_events σ) 0 3 = inr true ∧
    (0%nat, 3, true) ∈ calls σ.
Proof.
  eexists. split; [vm_compute; reflexivity|]. split; [reflexivity|].
  eapply (stage3_waits_for_providers (λ _ _, true) scenario_A _ _
            1 true [0%nat] 0).
  - apply (run_schedule_reachable _ scenario_A
             [0; 0; 0; 0; 0; 0; 1; 1; 1; 1; 1; 1]%nat).
    vm_compute. reflexivity.
  - vm_compute. reflexivity.
  - vm_compute. reflexivity.
  - vm_compute. reflexivity.
  - left.
Defined.

Lemma stage_failure_is_final_witness :
  ∃ σ σ1,
    run_schedule (λ _ s, negb (s =? 6)) scenario_D [0; 0; 0]%nat
      (main_init scenario_D) = Some σ ∧
    run_pipeline_step (λ _ s, negb (s =? 6)) (identify_dependencies scenario_D)
      0 σ = Some σ1 ∧
    stage_events σ1 = stage_events σ ∧
    ∀ σ', rtc (sys_step (λ _ s, negb (s =? 6)) scenario_D) σ1 σ' →
      get_event (stage_events σ') 0 6 ≠ inr true ∧
      stages_of 0 (calls σ') = stages_of 0 (calls σ) ++ [6] ∧
      runners σ' !! 0%nat = Some (Failed (StageFailure 0 6)) ∧
      main_outcome σ' = Raised.
Proof.
  eexists. eexists. split; [vm_compute; reflexivity|].
  split; [vm_compute; reflexivity|].
  eapply (stage_failure_is_final (λ _ s, negb (s =? 6)) scenario_D _ _ 0 6).
  - apply (run_schedule_reachable _ scenario_D [0; 0; 0]%nat).
    vm_compute. reflexivity.
  - vm_compute. reflexivity.
  - vm_compute. reflexivity.
Defined.

Lemma stages_called_in_order_witness :
  ∃ σ,
    run_schedule (λ _ _, true) scenario_D [0; 0; 0; 0; 0; 0; 0]%nat
      (main_init scenario_D) = Some σ ∧
    runners σ !! 0%nat = Some Completed ∧
    stages_of 0 (calls σ) = [5; 6; 7].
Proof.
  eexists. split; [vm_compute; reflexivity|]. split; [reflexivity|].
  lazymatch goal with
  | |- stages_of _ (calls ?σ) = _ =>
      destruct (stages_called_in_order (λ _ _, true) scenario_D σ 0
                  (mkConfig "screenshots" "screenshots" "out" "" (Some "r1")
                     0 5 7)
                  Completed) as (_ & _ & _ & _ & Hd)
  end.
  - apply (run_schedule_reachable _ scenario_D [0; 0; 0; 0; 0; 0; 0]%nat).
    vm_compute. reflexivity.
  - reflexivity.
  - reflexivity.
  - destruct (Hd eq_refl eq_refl) as (_ & Hall & _). exact (Hall eq_refl).
Defined.

Lemma reversed_range_completes_witness :
  init_events reversed_range !! 0%nat = Some ∅ ∧
  stage_events (main_init reversed_range) !! 0%nat = Some ∅ ∧
  stages_of 0 (calls (main_init reversed_range)) = [] ∧
  run_pipeline_step (λ _ _, true) (identify_dependencies reversed_range) 0
    (main_init reversed_range)
  = Some (set_runner 0 Completed (main_init reversed_range)).
Proof.
  destruct (reversed_range_completes (λ _ _, true) reversed_range
              (main_init reversed_range) 0
              (mkConfig "screenshots" "screenshots" "out" "" None 0 5 3))
    as (Hinit & Hevs & Hcalls & _).
  - apply rtc_refl.
  - reflexivity.
  - simpl. lia.
  - split; [exact Hinit|]. split; [exact Hevs|]. split; [exact Hcalls|].
    reflexivity.
Defined.

(** ** The further theorems on the example batches *)

Lemma unrelated_sibling_completes_witness :
  runners (state_after (λ i s, negb ((i =? 0)%nat && (s =? 2)))
             unrelated_failure
             ([0; 0; 0; 0] ++ replicate 15 1 ++ replicate 16 2)%nat)
    !! 2%nat = Some Completed ∧
  stages_of 2 (calls (state_after (λ i s, negb ((i =? 0)%nat && (s =? 2)))
                        unrelated_failure
                        ([0; 0; 0; 0] ++ replicate 15 1 ++ replicate 16 2)%nat))
  = range 1 8.
Proof.
  destruct (unrelated_sibling_completes
              (λ i s, negb ((i =? 0)%nat && (s =? 2))) unrelated_failure
              (state_after (λ i s, negb ((i =? 0)%nat && (s =? 2)))
                 unrelated_failure [0; 0; 0]%nat)
              (state_after (λ i s, negb ((i =? 0)%nat && (s =? 2)))
                 unrelated_failure [0; 0; 0; 0]%nat)
              0 2 2 screenshots_r1)
    as (_ & _ & _ & _ & Hend).
  - apply (run_schedule_reachable _ unrelated_failure [0; 0; 0]%nat).
    vm_compute. reflexivity.
  - vm_compute. reflexivity.
  - vm_compute. reflexivity.
  - reflexivity.
  - discriminate.
  - intros providers Hdeps. vm_compute in Hdeps. injection Hdeps as <-.
    intros Hin. apply list_elem_of_singleton in Hin. discriminate Hin.
  - apply (Hend (state_after (λ i s, negb ((i =? 0)%nat && (s =? 2)))
                   unrelated_failure
                   ([0; 0; 0; 0] ++ replicate 15 1 ++ replicate 16 2)%nat)).
    + apply (run_schedule_rtc _ unrelated_failure
               (replicate 15 1 ++ replicate 16 2)%nat).
      vm_compute. reflexivity.
    + intros [|[|[|k]]]; vm_compute; reflexivity.
    + intros [|[|[|k]]] e Hk; vm_compute in Hk; try discriminate Hk.
      split; [discriminate|].
      intros providers Hdeps. vm_compute in Hdeps. injection Hdeps as <-.
      intros Hin. apply list_elem_of_singleton in Hin. discriminate Hin.
Defined.

Lemma signals_exist_for_own_range_witness :
  get_event (stage_events (main_init late_provider)) 0 3 = inl KeyError ∧
  ∃ flag, get_event (stage_events (main_init late_provider)) 0 4 = inr flag.
Proof.
  split.
  - apply (signals_exist_for_own_range (λ _ _, true) late_provider
             (main_init late_provider) 0
             (mkConfig "booru" "booru" "out" "" (Some "r1") 1 4 7) 3);
      [apply rtc_refl|reflexivity|simpl; lia].
  - apply (signals_exist_for_own_range (λ _ _, true) late_provider
             (main_init late_provider) 0
             (mkConfig "booru" "booru" "out" "" (Some "r1") 1 4 7) 4);
      [apply rtc_refl|reflexivity|simpl; lia].
Defined.

Lemma signal_done_iff_returned_witness :
  get_event
    (stage_events (state_after (λ _ _, true) scenario_A [0; 0]%nat)) 0 1
  = inr true.
Proof.
  apply (signal_done_iff_returned (λ _ _, true) scenario_A).
  - apply (run_schedule_reachable _ scenario_A [0; 0]%nat).
    vm_compute. reflexivity.
  - vm_compute. left.
Defined.

Lemma signal_stays_done_witness :
  get_event
    (stage_events (state_after (λ _ _, true) scenario_A
                     [0; 0; 1; 1; 0; 0]%nat)) 0 1
  = inr true.
Proof.
  apply (signal_stays_done (λ _ _, true) scenario_A
           (state_after (λ _ _, true) scenario_A [0; 0]%nat)).
  - apply (run_schedule_rtc _ scenario_A [1; 1; 0; 0]%nat).
    vm_compute. reflexivity.
  - vm_compute. reflexivity.
Defined.

Lemma calls_within_stage_functions_witness : 1 ≤ 6 ≤ 7.
Proof.
  apply (calls_within_stage_functions (λ _ s, negb (s =? 6)) scenario_D
           (state_after (λ _ s, negb (s =? 6)) scenario_D [0; 0; 0; 0]%nat)
           0 6 false).
  - apply (run_schedule_reachable _ scenario_D [0; 0; 0; 0]%nat).
    vm_compute. reflexivity.
  - vm_compute. right. left.
Defined.

Lemma failure_causes_witness :
  ∃ todo providers j p,
    runners (main_init late_provider) !! 1%nat = Some (AtLoop (3 :: todo)) ∧
    identify_dependencies late_provider !! 1%nat = Some providers ∧
    j ∈ providers ∧ late_provider !! j = Some p ∧
    ¬ start_stage p ≤ 3 ≤ end_stage p.
Proof.
  destruct (failure_causes (λ _ _, true) late_provider
              (main_init late_provider)
              (set_runner 1 (Failed KeyError) (main_init late_provider))
              1 KeyError)
    as [(s & todo & _ & _ & _ & Heq)
       |[(s & todo & Hk & _)|(todo & providers & j & p & H)]].
  - apply rtc_refl.
  - vm_compute. reflexivity.
  - reflexivity.
  - discriminate Heq.
  - discriminate Hk.
  - exists todo, providers, j, p.
    destruct H as (H1 & H2 & H3 & H4 & H5 & _). auto.
Defined.

Lemma valid_batch_fails_in_stage_function_witness :
  ∃ s, StageFailure 0 2 = StageFailure 0 s ∧
       negb ((0 =? 0)%nat && (s =? 2)) = false.
Proof.
  destruct (valid_batch_fails_in_stage_function
              (λ i s, negb ((i =? 0)%nat && (s =? 2))) scenario_A
              (state_after (λ i s, negb ((i =? 0)%nat && (s =? 2)))
                 scenario_A [0; 0; 0; 0]%nat)
              0 (StageFailure 0 2))
    as (s & Hs & Hret & _).
  - intros c Hc.
    repeat (apply elem_of_cons in Hc as [->|Hc]);
      [simpl; lia..|by apply elem_of_nil in Hc].
  - intros p Hp.
    repeat (apply elem_of_cons in Hp as [->|Hp]);
      [simpl; lia..|by apply elem_of_nil in Hp].
  - apply (run_schedule_reachable _ scenario_A [0; 0; 0; 0]%nat).
    vm_compute. reflexivity.
  - vm_compute. reflexivity.
  - exists s. split; [exact Hs|exact Hret].
Defined.

Lemma stuck_runner_is_done_or_stalled_witness :
  ∃ providers todo j e,
    Waiting [0%nat] 3 [4; 5; 6; 7] = Waiting providers 3 todo ∧
    j ∈ providers ∧
    runners (state_after (λ i s, negb ((i =? 0)%nat && (s =? 2))) scenario_A
               [0; 0; 0; 0; 1; 1; 1; 1; 1]%nat) !! j = Some (Failed e).
Proof.
  destruct (stuck_runner_is_done_or_stalled
              (λ i s, negb ((i =? 0)%nat && (s =? 2))) scenario_A
              (state_after (λ i s, negb ((i =? 0)%nat && (s =? 2))) scenario_A
                 [0; 0; 0; 0; 1; 1; 1; 1; 1]%nat)
              1 (Waiting [0%nat] 3 [4; 5; 6; 7]))
    as [Hdone|[[e He]|(providers & todo & j & e & H)]].
  - apply (run_schedule_reachable _ scenario_A
             [0; 0; 0; 0; 1; 1; 1; 1; 1]%nat).
    vm_compute. reflexivity.
  - intros [|[|k]]; vm_compute; reflexivity.
  - vm_compute. reflexivity.
  - discriminate Hdone.
  - discriminate He.
  - exists providers, todo, j, e.
    destruct H as (H1 & _ & H3 & H4 & _). auto.
Defined.

Lemma no_failure_no_deadlock_witness :
  main_outcome (state_after (λ _ _, true) scenario_D
                  [0; 0; 0; 0; 0; 0; 0]%nat) = Returned.
Proof.
  apply (no_failure_no_deadlock (λ _ _, true) scenario_D).
  - apply (run_schedule_reachable _ scenario_D [0; 0; 0; 0; 0; 0; 0]%nat).
    vm_compute. reflexivity.
  - intros [|k]; vm_compute; reflexivity.
  - intros [|i] e; vm_compute; discriminate.
Defined.

Lemma free_runner_can_step_witness :
  is_Some (run_pipeline_step (λ _ _, true) (identify_dependencies scenario_A)
             0 (state_after (λ _ _, true) scenario_A [1; 1; 1; 1; 1]%nat)).
Proof.
  apply (free_runner_can_step (λ _ _, true) scenario_A _ 0 booru_r1
           (AtLoop [1; 2; 3; 4; 5; 6; 7])).
  - apply (run_schedule_reachable _ scenario_A [1; 1; 1; 1; 1]%nat).
    vm_compute. reflexivity.
  - reflexivity.
  - vm_compute. reflexivity.
  - exact I.
  - left. vm_compute. reflexivity.
Defined.

Lemma completed_runner_signals_witness :
  1 ≤ 6 ≤ 7 ∧
  (0%nat, 6, true)
    ∈ calls (state_after (λ _ _, true) scenario_D
               [0; 0; 0; 0; 0; 0; 0]%nat) ∧
  get_event (stage_events (state_after (λ _ _, true) scenario_D
                             [0; 0; 0; 0; 0; 0; 0]%nat)) 0 6 = inr true.
Proof.
  apply (completed_runner_signals (λ _ _, true) scenario_D _ 0
           (mkConfig "screenshots" "screenshots" "out" "" (Some "r1") 0 5 7)).
  - apply (run_schedule_reachable _ scenario_D [0; 0; 0; 0; 0; 0; 0]%nat).
    vm_compute. reflexivity.
  - reflexivity.
  - vm_compute. reflexivity.
  - simpl. lia.
Defined.

Lemma schedule_length_bounded_witness :
  (length [0; 0; 0; 0; 0; 0; 0]%nat ≤
   sum_list ((λ c, 3 * Z.to_nat (end_stage c + 1 - start_stage c) + 1)%nat
               <$> scenario_D))%nat.
Proof.
  apply (schedule_length_bounded (λ _ _, true) scenario_D
           [0; 0; 0; 0; 0; 0; 0]%nat
           (state_after (λ _ _, true) scenario_D [0; 0; 0; 0; 0; 0; 0]%nat)).
  vm_compute. reflexivity.
Defined.

Lemma valid_batch_completes_witness :
  main_outcome
    (state_after (λ _ _, true) scenario_A
       (replicate 15 0%nat ++ replicate 16 1%nat)) = Returned.
Proof.
  apply (valid_batch_completes (λ _ _, true) scenario_A).
  - intros c Hc.
    repeat (apply elem_of_cons in Hc as [->|Hc]);
      [simpl; lia..|by apply elem_of_nil in Hc].
  - intros p Hp.
    repeat (apply elem_of_cons in Hp as [->|Hp]);
      [simpl; lia..|by apply elem_of_nil in Hp].
  - reflexivity.
  - apply (run_schedule_reachable _ scenario_A
             (replicate 15 0%nat ++ replicate 16 1%nat)).
    vm_compute. reflexivity.
  - intros [|[|k]]; vm_compute; reflexivity.
Defined.

Lemma providers_have_no_providers_witness :
  (0 < length scenario_A)%nat ∧ 0%nat ≠ 1%nat ∧
  identify_dependencies scenario_A !! 0%nat = None.
Proof.
  apply (providers_have_no_providers scenario_A 1 0 [0%nat]);
    [vm_compute; reflexivity|left].
Defined.

Lemma same_ref_dir_same_providers_witness :
  identify_dependencies two_dependents !! 1%nat =
  identify_dependencies two_dependents !! 2%nat.
Proof.
  apply (same_ref_dir_same_providers two_dependents 1 2 screenshots_r1
           (mkConfig "screenshots" "frames" "out" "" (Some "r1") 0 2 5));
    try reflexivity; intros [[=] _].
Defined.

Lemma no_contributor_no_dependencies_witness :
  identify_dependencies scenario_D = ∅.
Proof.
  apply (no_contributor_no_dependencies scenario_D).
  intros c Hc.
  repeat (apply elem_of_cons in Hc as [->|Hc]);
    [intros [[=] _]|by apply elem_of_nil in Hc].
Defined.

Lemma alias_resolves_to_stage_witness :
  py_int (λ _, None) (resolve_alias (VStr "caption")) = Some 5 ∧ 1 ≤ 5 ≤ 7.
Proof.
  apply (alias_resolves_to_stage (λ _, None) 5
           ["tag"; "caption"; "tag_and_caption"] "caption").
  - apply (list_elem_of_lookup_2 _ 4%nat). reflexivity.
  - right. left.
Defined.

Lemma non_alias_bound_is_kept_witness :
  resolve_alias (VStr "3") = VStr "3" ∧
  py_int (λ _, Some 3) (resolve_alias (VStr "3")) = Some 3.
Proof.
  apply (non_alias_bound_is_kept (λ _, Some 3) (VStr "3")).
  intros n aliases s Hentry [= <-] Hin. unfold STAGE_ALIASES in Hentry.
  repeat (apply elem_of_cons in Hentry as [[= -> ->]|Hentry]);
    try (by apply elem_of_nil in Hentry);
    repeat (apply elem_of_cons in Hin as [[=]|Hin]);
    by apply elem_of_nil in Hin.
Defined.

(** ** The directories of the stages *)

Lemma get_src_dir_fuel_eq path_join dirname fuel args stage :
  get_src_dir_fuel path_join dirname (S fuel) args stage =
  if bool_decide (stage = start_stage (args_config args))
     || bool_decide (stage = 1)
  then Dir (src_dir args)
  else if bool_decide (stage = 2) then
    Dir (get_and_create_dst_dir path_join args "intermediate" "raw" false).1
  else if bool_decide (stage = 3) then
    Dir (get_and_create_dst_dir path_join args "intermediate" "cropped" false).1
  else if bool_decide (stage = 4) then
    Dir (get_and_create_dst_dir path_join args "intermediate" "" false).1
  else if bool_decide (stage = 5) then
    Dir (get_and_create_dst_dir path_join args "training" "" false).1
  else if bool_decide (stage = 6) then
    match get_src_dir_fuel path_join dirname fuel args 5 with
    | Dir dst => Dir (up_levels dirname (rearrange_up_levels args) dst)
    | other => other
    end
  else if bool_decide (stage = 7) then
    match get_src_dir_fuel path_join dirname fuel args 6 with
    | Dir dst => Dir (up_levels dirname (compute_multiply_up_levels args) dst)
    | other => other
    end
  else InvalidStage.
Proof. reflexivity. Qed.

Lemma get_src_dir_fuel_S path_join dirname fuel args stage :
  get_src_dir_fuel path_join dirname fuel args stage ≠ OutOfFuel →
  get_src_dir_fuel path_join dirname (S fuel) args stage =
  get_src_dir_fuel path_join dirname fuel args stage.
Proof.
  revert stage. induction fuel as [|fuel IH]; intros stage Hfuel; [done|].
  rewrite (get_src_dir_fuel_eq _ _ fuel args stage) in Hfuel |- *.
  rewrite (get_src_dir_fuel_eq _ _ (S fuel) args stage).
  destruct (bool_decide (stage = start_stage (args_config args))
            || bool_decide (stage = 1)); [done|].
  repeat (case_bool_decide; [done|]).
  case_bool_decide.
  { rewrite IH; [done|].
    by destruct (get_src_dir_fuel path_join dirname fuel args 5). }
  case_bool_decide; [|done].
  rewrite IH; [done|].
  by destruct (get_src_dir_fuel path_join dirname fuel args 6).
Qed.

Lemma get_src_dir_cases path_join dirname args stage :
  match get_src_dir path_join dirname args stage with
  | OutOfFuel => False
  | InvalidStage =>
      stage ≠ start_stage (args_config args) ∧ ¬ 1 ≤ stage ≤ 7
  | Dir _ => stage = start_stage (args_config args) ∨ 1 ≤ stage ≤ 7
  end.
Proof.
  unfold get_src_dir. cbn [get_src_dir_fuel].
  destruct (decide (stage = start_stage (args_config args))) as [Hs|Hs].
  { rewrite (bool_decide_eq_true_2 _ Hs). simpl. by left. }
  rewrite (bool_decide_eq_false_2 _ Hs). simpl.
  repeat (case_bool_decide; [right; lia|]).
  case_bool_decide.
  { repeat case_match; (right; lia) || done. }
  case_bool_decide; [|split; [done|lia]].
  repeat case_match; (right; lia) || done.
Qed.

(** X19: [get_src_dir] raises its [ValueError] exactly for a stage that
    is neither the start stage nor one of 1..7, and gives a directory
    otherwise; its calls to itself end (three levels are enough, and more
    change nothing), so it never fails for a stage that [run_stage] has
    found in [STAGE_FUNCTIONS]. *)
Theorem get_src_dir_result (path_join : string → list string → string)
    (dirname : string → string) (args : StageArgs) (stage : Z) :
  (∀ fuel, (3 ≤ fuel)%nat →
     get_src_dir_fuel path_join dirname fuel args stage =
     get_src_dir path_join dirname args stage) ∧
  match get_src_dir path_join dirname args stage with
  | OutOfFuel => False
  | InvalidStage =>
      stage ≠ start_stage (args_config args) ∧ ¬ 1 ≤ stage ≤ 7
  | Dir _ => stage = start_stage (args_config args) ∨ 1 ≤ stage ≤ 7
  end.
Proof.
  split; [|apply get_src_dir_cases].
  intros fuel Hfuel. induction Hfuel as [|fuel Hfuel IH]; [done|].
  rewrite get_src_dir_fuel_S; [done|]. rewrite IH.
  pose proof (get_src_dir_cases path_join dirname args stage) as Hcases.
  by destruct (get_src_dir path_join dirname args stage).
Qed.

(** X20: stage 2 reads the directory that stage 1 writes, stage 3 the one
    that stage 2 writes and stage 5 the one that stage 4 writes, unless
    the reading stage is the start stage (which reads [src_dir]).  Stage 3
    is left out: stage 4 does not read the directory that stage 3 writes
    but its parent. *)
Theorem stage_reads_what_previous_wrote
    (path_join : string → list string → string) (dirname : string → string)
    (args : StageArgs) (s : Z) (fn : StageFn) (d : string)
    (created : list string)
    (Hfn : STAGE_FUNCTIONS s = Some fn)
    (Hdst : stage_dst_dir path_join fn args = Some (d, created))
    (Hs : s ≠ 3)
    (Hstart : start_stage (args_config args) ≠ s + 1) :
  get_src_dir path_join dirname args (s + 1) = Dir d ∧ created = [d].
Proof.
  unfold STAGE_FUNCTIONS in Hfn.
  repeat (case_bool_decide as Hcase;
          [subst s; injection Hfn as <-; simpl in Hdst;
           try done; injection Hdst as <- <-;
           unfold get_src_dir; cbn [get_src_dir_fuel];
           rewrite bool_decide_eq_false_2 by done; by vm_compute
          |clear Hcase]).
  done.
Qed.

Lemma string_app_nil_r (s : string) : String.append s "" = s.
Proof.
  induction s as [|c s IH]; [done|].
  change (String c (String.append s "") = String c s). by rewrite IH.
Qed.

Lemma string_app_assoc (s1 s2 s3 : string) :
  String.append (String.append s1 s2) s3
  = String.append s1 (String.append s2 s3).
Proof.
  induction s1 as [|c s1 IH]; [done|].
  change (String c (String.append (String.append s1 s2) s3)
          = String c (String.append s1 (String.append s2 s3))).
  by rewrite IH.
Qed.

Lemma ends_with_sep_snoc (s : string) :
  ends_with_sep (String.append s "/") = true.
Proof.
  induction s as [|c s IH]; [done|].
  change (ends_with_sep (String c (String.append s "/")) = true).
  cbn [ends_with_sep].
  destruct (String.append s "/") eqn:Happ; [|done].
  by destruct s.
Qed.

Lemma string_app_sep_nonempty (s : string) : String.append s "/" ≠ "".
Proof. by destruct s. Qed.

(** Joining onto a directory to which the empty component was joined is
    joining onto the directory. *)
Lemma join_step_empty path b :
  join_step (join_step path "") b = join_step path b.
Proof.
  unfold join_step. simpl. destruct (starts_with_sep b); [done|].
  destruct (bool_decide (path = "") || ends_with_sep path) eqn:Hend.
  - rewrite string_app_nil_r. by rewrite Hend.
  - rewrite (bool_decide_eq_false_2 _ (string_app_sep_nonempty path)).
    simpl. rewrite ends_with_sep_snoc. simpl.
    by rewrite string_app_assoc.
Qed.

(** X21: with [os.path.join] of POSIX paths, the [classified_dir] and the
    [full_dir] that stage 4 reads are the directories that stage 3 and
    stage 1 write ([classified] and [raw] under the intermediate
    directory), whatever the folder names are, unless stage 4 is the start
    stage. *)
Theorem select_reads_classified_and_raw (dirname : string → string)
    (args : StageArgs)
    (Hstart : start_stage (args_config args) ≠ 4) :
  select_source_dirs posix_join dirname args 4 =
  classified ← stage_dst_dir posix_join classify_characters args;
  raw ← stage_dst_dir posix_join extract_frames args;
  Some (classified.1, raw.1).
Proof.
  unfold select_source_dirs, get_src_dir.
  rewrite get_src_dir_fuel_eq.
  rewrite (bool_decide_eq_false_2 (4 = _)) by done. simpl.
  unfold posix_join. simpl. by rewrite !join_step_empty.
Qed.

(** X22: when the run starts neither at stage 6 nor at stage 7, the
    directory of stage 7 is [os.path.dirname] applied
    [rearrange_up_levels] plus [compute_multiply_up_levels] times (a
    negative level counting as none) to the training directory, or to
    [src_dir] when the run starts at stage 5. *)
Theorem balance_dir_goes_up_both_levels
    (path_join : string → list string → string) (dirname : string → string)
    (args : StageArgs)
    (H6 : start_stage (args_config args) ≠ 6)
    (H7 : start_stage (args_config args) ≠ 7) :
  get_src_dir path_join dirname args 7 =
  Dir (Nat.iter (Z.to_nat (compute_multiply_up_levels args)
                 + Z.to_nat (rearrange_up_levels args))
         dirname
         (if bool_decide (start_stage (args_config args) = 5)
          then src_dir args
          else (get_and_create_dst_dir path_join args "training" "" false).1)).
Proof.
  unfold get_src_dir. rewrite !get_src_dir_fuel_eq.
  rewrite (bool_decide_eq_false_2 (7 = _)) by done.
  rewrite (bool_decide_eq_false_2 (6 = _)) by done. simpl.
  unfold up_levels. rewrite Nat.iter_add.
  destruct (decide (start_stage (args_config args) = 5)) as [H5|H5].
  - rewrite (bool_decide_eq_true_2 (5 = _)) by done.
    by rewrite (bool_decide_eq_true_2 (_ = 5)).
  - rewrite (bool_decide_eq_false_2 (5 = _)) by done.
    by rewrite (bool_decide_eq_false_2 (_ = 5)).
Qed.

Lemma stage_reads_what_previous_wrote_witness :
  get_src_dir posix_join (λ d, d) stage_args_full 2
  = Dir "/data/out/intermediate/show/screenshots/raw".
Proof.
  apply (stage_reads_what_previous_wrote posix_join (λ d, d) stage_args_full
           1 extract_frames "/data/out/intermediate/show/screenshots/raw"
           ["/data/out/intermediate/show/screenshots/raw"]);
    [reflexivity|reflexivity|lia|simpl; lia].
Defined.

Lemma select_reads_classified_and_raw_witness :
  select_source_dirs posix_join (λ d, d) stage_args_full 4
  = Some ("/data/out/intermediate/show/screenshots/classified",
          "/data/out/intermediate/show/screenshots/raw").
Proof.
  rewrite (select_reads_classified_and_raw (λ d, d) stage_args_full);
    [reflexivity|simpl; lia].
Defined.

Lemma balance_dir_goes_up_both_levels_witness :
  get_src_dir posix_join (λ d, String.append d "/..") stage_args_full 7
  = Dir "/data/out/training/show/screenshots//../../..".
Proof.
  rewrite (balance_dir_goes_up_both_levels posix_join
             (λ d, String.append d "/..") stage_args_full);
    [reflexivity|simpl; lia|simpl; lia].
Defined.

(** ** Configuration files *)

Lemma setattr_items_union {V} (ns : gmap string V) items :
  setattr_items ns items = list_to_map (reverse items) ∪ ns.
Proof.
  revert ns. induction items as [|[k v] items IH]; intros ns.
  - simpl. by rewrite (left_id_L ∅ (∪)).
  - change (setattr_items ns ((k, v) :: items))
      with (setattr_items (<[k := v]> ns) items).
    rewrite IH, reverse_cons, list_to_map_app. simpl.
    rewrite <- (assoc_L (∪)). f_equal.
    by rewrite insert_empty, <- insert_union_singleton_l.
Qed.

Lemma setattr_items_app {V} (ns : gmap string V) items1 items2 :
  setattr_items ns (items1 ++ items2)
  = setattr_items (setattr_items ns items1) items2.
Proof. apply foldl_app. Qed.

Lemma foldl_apply_config_item {V} (as_dict : V → option (list (string * V)))
    (ns : gmap string V) config :
  foldl (apply_config_item as_dict) ns config
  = setattr_items ns (flatten_config as_dict config).
Proof.
  revert ns. induction config as [|kv config IH]; intros ns; [done|].
  unfold flatten_config. rewrite bind_cons, setattr_items_app.
  simpl. rewrite IH. f_equal. unfold apply_config_item.
  by destruct (as_dict kv.2).
Qed.

Lemma update_args_from_toml_union {V}
    (as_dict : V → option (list (string * V)))
    (toml_load : V → option (list (string * V)))
    (args : gmap string V) (toml_path : V) :
  update_args_from_toml as_dict toml_load args toml_path
  = file_entries as_dict toml_load toml_path ∪ args.
Proof.
  unfold update_args_from_toml, file_entries.
  destruct (toml_load toml_path) as [config|].
  - by rewrite foldl_apply_config_item, setattr_items_union.
  - by rewrite (left_id_L ∅ (∪)).
Qed.

(** X23: [update_args_from_toml] returns the namespace in which every
    name that the file sets, at the top level or inside a section, has
    the last value that the file gives to it, and every other attribute
    keeps its value; the name of a section is not set.  A file that cannot
    be loaded changes nothing. *)
Theorem update_args_from_toml_result {V : Type}
    (as_dict : V → option (list (string * V)))
    (toml_load : V → option (list (string * V)))
    (args : gmap string V) (toml_path : V) (k : string) :
  update_args_from_toml as_dict toml_load args toml_path !! k =
  match toml_load toml_path with
  | Some config =>
      match (list_to_map (reverse (flatten_config as_dict config))
               : gmap string V) !! k with
      | Some v => Some v
      | None => args !! k
      end
  | None => args !! k
  end.
Proof.
  rewrite update_args_from_toml_union. unfold file_entries.
  destruct (toml_load toml_path) as [config|].
  - rewrite lookup_union.
    destruct ((list_to_map (reverse (flatten_config as_dict config))
                 : gmap string V) !! k)
      as [v|]; [|by rewrite (left_id None _)].
    by destruct (args !! k).
  - rewrite lookup_union, lookup_empty. by rewrite (left_id None _).
Qed.

(** X24: when a base configuration file and configuration files are
    given, the batch has one namespace for each configuration file, and in
    it a value given explicitly on the command line comes before the value
    of the configuration file, that before the value of the base file, and
    that before the parsed default.  A file that cannot be loaded
    contributes nothing and stops nothing. *)
Theorem config_precedence {V : Type}
    (as_dict : V → option (list (string * V))) (truthy : V → bool)
    (py_iter : V → option (list V))
    (toml_load : V → option (list (string * V)))
    (args : gmap string V) (explicit_args : list (string * V))
    (base config_file : V) (paths : list V)
    (Hbase : args !! "base_config_file" = Some base)
    (Hbase_set : truthy base = true)
    (Hfiles : (file_entries as_dict toml_load base ∪ args) !! "config_file"
              = Some config_file)
    (Hfiles_set : truthy config_file = true)
    (Hiter : py_iter config_file = Some paths) :
  build_configs as_dict truthy py_iter toml_load args explicit_args =
  Some ((λ path,
           list_to_map (reverse explicit_args)
           ∪ (file_entries as_dict toml_load path
              ∪ (file_entries as_dict toml_load base ∪ args)))
          <$> paths).
Proof.
  unfold build_configs. rewrite Hbase, Hbase_set.
  rewrite update_args_from_toml_union, Hfiles.
  assert (is_Some ((file_entries as_dict toml_load base ∪ args)
                     !! "base_config_file")) as [base' ->].
  { apply lookup_union_is_Some. right. by eexists. }
  rewrite Hfiles_set, Hiter, orb_true_r.
  f_equal. rewrite <- list_fmap_compose. apply list_fmap_ext.
  intros _ path _. simpl.
  by rewrite setattr_items_union, update_args_from_toml_union.
Qed.

Lemma config_precedence_witness :
  (λ ns, (ns !! "dst_dir", ns !! "pipeline_type", ns !! "end_stage",
          ns !! "start_stage", ns !! "log_dir", ns !! "general"))
    <$> default []
          (build_configs obj_as_dict obj_truthy obj_iter example_files
             example_args example_explicit)
  = [ (Some (Plain (SStr "cli_out")), Some (Plain (SStr "booru")),
       Some (Plain (SInt 4)), Some (Plain (SInt 1)),
       Some (Plain (SStr "logs")), None);
      (Some (Plain (SStr "cli_out")), Some (Plain (SStr "screenshots")),
       Some (Plain (SInt 7)), Some (Plain (SInt 1)),
       Some (Plain (SStr "logs")), None) ].
Proof.
  rewrite (config_precedence obj_as_dict obj_truthy obj_iter example_files
             example_args example_explicit
             (Plain (SStr "base.toml"))
             (Plain (SStrs ["booru.toml"; "missing.toml"]))
             [Plain (SStr "booru.toml"); Plain (SStr "missing.toml")]);
    by vm_compute.
Defined.
